(** * TreeView-Explorer: the directory tree, its tri-state selection and its helpers

    A shallow embedding of the interactive explorer of [src/unnamed/part_002]
    (the second, tri-state version of [InteractiveDirectoryTree]: selection,
    [saveSelection], [getSelectedFiles], [scanDirectory],
    [loadLargeDirectoryContents], [updateVisibleNodes], [moveUp], [moveDown]
    and the arrow keys of [start()], the indentation of [renderVisibleNode],
    [isBinaryFile]), of
    [DirectoryTree.expandNode] and [DirectoryTree.loadChildrenForNode] of
    [src/src/treeUI.ts], and of [FileExport.removeFile] of
    [src/src/fileExport.ts].

    Nodes are JavaScript objects shared between the tree, the [nodeMap] and the
    visible list.  Every node is created with the path [path.join] of its
    parent's path and its entry name ([join] below for the resolved root of
    [part_002], [path_join] for the root [DirectoryTree] takes as given), and
    the code finds a node again through [nodeMap.get(path)]; the model
    therefore identifies a node object with its path: the root of the tree is
    the whole state, [nodeMap.get(p)] is [lookup p root] and a mutation of the
    object with path [p] is [update_at p f root]. *)

From Stdlib Require Import String List ZArith Lia Bool Ascii Sorting Permutation.
Import ListNotations.
Open Scope string_scope.
Set Warnings "-register-all".

(** ** JavaScript string helpers *)

Definition slash : ascii := "/"%char.

(** [String.prototype.lastIndexOf(c)]: index of the last occurrence, or -1. *)
Fixpoint lastIndexOf_from (s : string) (c : ascii) (i acc : Z) : Z :=
  match s with
  | EmptyString => acc
  | String a s' => lastIndexOf_from s' c (i + 1) (if Ascii.eqb a c then i else acc)
  end.

Definition lastIndexOf (s : string) (c : ascii) : Z := lastIndexOf_from s c 0 (-1).

(** [s.substring(0, e)]: a negative end counts as 0, an end past the length
    as the length. *)
Definition substring0 (s : string) (e : Z) : string :=
  String.substring 0 (Z.to_nat e) s.

(** The parent path computed in [updateParentSelectionStates]:
    [p.substring(0, p.lastIndexOf('/'))]. *)
Definition parentPathOf (p : string) : string :=
  substring0 p (lastIndexOf p slash).

Definition endsWithSlash (s : string) : bool :=
  match String.get (String.length s - 1) s with
  | Some c => Ascii.eqb c slash
  | None => false
  end.

(** [path.join(dir, entry)] for a normalised absolute [dir] and a directory
    entry name (no '/', not "." or ".."), which is how every child path is
    built in [part_002] ([join(node.path, entry)]): its root path comes from
    [path.resolve], so every directory path there is normalised and absolute. *)
Definition join (dir entry : string) : string :=
  if endsWithSlash dir then dir ++ entry else dir ++ String slash entry.

(** [path.join(a, b)] of Node's [path] module in general (POSIX), as the
    [DirectoryTree] of [src/src/treeUI.ts] uses it on a root path taken
    as given: the non-empty arguments are joined with '/' and the result is
    [path.normalize]d. *)

(** [s.split('/')]. *)
Fixpoint split_slash (s : string) : list string :=
  match s with
  | EmptyString => [""]
  | String c s' =>
      match split_slash s' with
      | seg :: segs => if Ascii.eqb c slash then "" :: seg :: segs else String c seg :: segs
      | [] => [String c ""]
      end
  end.

(** The segment loop of [normalizeString]: empty and "." segments are
    dropped, ".." removes the last kept segment unless that is "..", and is
    otherwise kept only for a relative path ([allowAboveRoot]).  [res] holds
    the kept segments, the last one first. *)
Fixpoint normalize_segments (allowAboveRoot : bool) (segs res : list string) : list string :=
  match segs with
  | [] => rev res
  | seg :: segs' =>
      if String.eqb seg "" || String.eqb seg "." then normalize_segments allowAboveRoot segs' res
      else if String.eqb seg ".." then
        match res with
        | r :: res' =>
            if String.eqb r ".." then
              normalize_segments allowAboveRoot segs'
                (if allowAboveRoot then ".." :: res else res)
            else normalize_segments allowAboveRoot segs' res'
        | [] =>
            normalize_segments allowAboveRoot segs' (if allowAboveRoot then [".."] else [])
        end
      else normalize_segments allowAboveRoot segs' (seg :: res)
  end.

(** [path.normalize(p)]. *)
Definition path_normalize (p : string) : string :=
  match p with
  | EmptyString => "."
  | String c _ =>
      let isAbsolute := Ascii.eqb c slash in
      let trailingSeparator := endsWithSlash p in
      let r := String.concat "/" (normalize_segments (negb isAbsolute) (split_slash p) []) in
      if String.eqb r "" then
        (if isAbsolute then "/" else if trailingSeparator then "./" else ".")
      else
        let r' := if trailingSeparator then r ++ "/" else r in
        if isAbsolute then "/" ++ r' else r'
  end.

(** [path.join(a, b)]. *)
Definition path_join (a b : string) : string :=
  path_normalize (if String.eqb a "" then b else if String.eqb b "" then a else a ++ "/" ++ b).

(** ** The node graph ([class DirectoryNode], tri-state version)

    The counters [childrenCount] / [fileCount] are only read for display and
    are left out. *)

Inductive DirectoryNode : Type := mkNode {
  path : string;
  name : string;
  isDirectory : bool;
  children : list DirectoryNode;
  expanded : bool;
  selected : bool;
  partiallySelected : bool }.

(** Induction over a node and, through its [children] list, its subtree. *)
Definition node_ind' (P : DirectoryNode -> Prop)
  (H : forall n, (forall c, In c (children n) -> P c) -> P n) :
  forall n, P n :=
  fix F n :=
    match n with
    | mkNode p nm d cs e s ps =>
        H (mkNode p nm d cs e s ps)
          ((fix G (l : list DirectoryNode) : forall c, In c l -> P c :=
              match l with
              | [] => fun c (i : In c []) => False_ind (P c) i
              | x :: l' => fun c (i : In c (x :: l')) =>
                  match i with
                  | or_introl e => eq_ind x P (F x) c e
                  | or_intror i' => G l' c i'
                  end
              end) cs)
    end.

(** All nodes of a subtree in pre-order. *)
Fixpoint nodes (n : DirectoryNode) : list DirectoryNode :=
  n :: flat_map nodes (children n).

Definition paths (n : DirectoryNode) : list string := map path (nodes n).

(** [nodeMap.get(p)]: the node object with path [p] (first in pre-order). *)
Fixpoint lookup (p : string) (n : DirectoryNode) : option DirectoryNode :=
  if String.eqb (path n) p then Some n
  else (fix go (l : list DirectoryNode) : option DirectoryNode :=
          match l with
          | [] => None
          | c :: l' => match lookup p c with Some r => Some r | None => go l' end
          end) (children n).

(** Mutating the object with path [q] in place: [f] rewrites that node. *)
Fixpoint update_at (q : string) (f : DirectoryNode -> DirectoryNode)
  (n : DirectoryNode) : DirectoryNode :=
  match n with
  | mkNode p nm d cs e s ps =>
      if String.eqb p q then f n
      else mkNode p nm d (map (update_at q f) cs) e s ps
  end.

Definition set_selection (sel part : bool) (n : DirectoryNode) : DirectoryNode :=
  mkNode (path n) (name n) (isDirectory n) (children n) (expanded n) sel part.

(** The tri-state of a node as [renderVisibleNode] shows it. *)
Inductive SelState := SNone | SPartial | SFull.

Definition SelState_eqb (a b : SelState) : bool :=
  match a, b with
  | SNone, SNone | SPartial, SPartial | SFull, SFull => true
  | _, _ => false
  end.

Definition sel_state (n : DirectoryNode) : SelState :=
  if selected n then SFull else if partiallySelected n then SPartial else SNone.

(** ** Selection ([toggleSelect] and its helpers) *)

(** [setSelectionRecursive(node, selected)]. *)
Fixpoint setSelectionRecursive (sel : bool) (n : DirectoryNode) : DirectoryNode :=
  match n with
  | mkNode p nm d cs e _ _ =>
      mkNode p nm d (if d then map (setSelectionRecursive sel) cs else cs) e sel false
  end.

(** [updateDirectorySelectionState(dir)]. *)
Definition updateDirectorySelectionState (dir : DirectoryNode) : DirectoryNode :=
  if negb (isDirectory dir) || (List.length (children dir) =? 0)%nat then dir
  else
    let allSelected := forallb selected (children dir) in
    let anySelected :=
      existsb (fun c => selected c || partiallySelected c) (children dir) in
    if allSelected then set_selection true false dir
    else if anySelected then set_selection false true dir
    else set_selection false false dir.

(** The [while (parent)] loop of [updateParentSelectionStates], also returning
    the paths of the directories it hands to [updateDirectorySelectionState],
    in visiting order.  Each round strictly shortens a non-empty path; the fuel
    given below, one more than the length of the starting path, is enough
    unless the empty path is a key of the map, where the source loops for ever
    (an absolute root path never is). *)
Fixpoint parentWalk (fuel : nat) (root : DirectoryNode) (parentPath : string)
  : DirectoryNode * list string :=
  match fuel with
  | O => (root, [])
  | S fuel' =>
      match lookup parentPath root with
      | None => (root, [])
      | Some parent =>
          let root' := update_at (path parent) updateDirectorySelectionState root in
          let (root'', visited) := parentWalk fuel' root' (parentPathOf (path parent)) in
          (root'', path parent :: visited)
      end
  end.

Definition updateParentSelectionStates_trace (root node : DirectoryNode)
  : DirectoryNode * list string :=
  parentWalk (S (String.length (path node))) root (parentPathOf (path node)).

(** [updateParentSelectionStates(node)]. *)
Definition updateParentSelectionStates (root node : DirectoryNode) : DirectoryNode :=
  fst (updateParentSelectionStates_trace root node).

(** [toggleSelect()] on the node under the cursor ([None]: no node there). *)
Definition toggleSelect (root : DirectoryNode) (currentNode : option DirectoryNode)
  : DirectoryNode :=
  match currentNode with
  | None => root
  | Some cur =>
      let newSelectionState := negb (selected cur) in
      let root1 := update_at (path cur) (set_selection newSelectionState false) root in
      let root2 :=
        if isDirectory cur
        then update_at (path cur) (setSelectionRecursive newSelectionState) root1
        else root1 in
      updateParentSelectionStates root2 cur
  end.

(** Toggling the node with path [p], the cursor resting on it. *)
Definition toggle_at (root : DirectoryNode) (p : string) : DirectoryNode :=
  toggleSelect root (lookup p root).

(** Which directories the upward walk of that toggle hands to
    [updateDirectorySelectionState]. *)
Definition toggle_walk_visits (root : DirectoryNode) (p : string) : list string :=
  match lookup p root with
  | None => []
  | Some cur =>
      let newSelectionState := negb (selected cur) in
      let root1 := update_at (path cur) (set_selection newSelectionState false) root in
      let root2 :=
        if isDirectory cur
        then update_at (path cur) (setSelectionRecursive newSelectionState) root1
        else root1 in
      snd (updateParentSelectionStates_trace root2 cur)
  end.

(** [getSelectedPaths()]. *)
Fixpoint collectSelectedPaths (n : DirectoryNode) : list string :=
  (if selected n then [path n] else [])
  ++ (if isDirectory n then flat_map collectSelectedPaths (children n) else []).

Definition getSelectedPaths (root : option DirectoryNode) : list string :=
  match root with Some r => collectSelectedPaths r | None => [] end.

(** [Array.prototype.join(sep)]. *)
Fixpoint js_join (sep : string) (l : list string) : string :=
  match l with
  | [] => ""
  | [x] => x
  | x :: l' => x ++ sep ++ js_join sep l'
  end.

Definition newline : string := String (ascii_of_nat 10) "".

(** The text [saveSelection] hands to [writeFileSync]. *)
Definition saveSelection_text (root : option DirectoryNode) : string :=
  js_join newline (getSelectedPaths root).

(** ** Properties of trees *)

(** The derived tri-state of a non-empty list of children. *)
Definition derived_state (cs : list DirectoryNode) : SelState :=
  if forallb (fun c => SelState_eqb (sel_state c) SFull) cs then SFull
  else if forallb (fun c => SelState_eqb (sel_state c) SNone) cs then SNone
  else SPartial.

Definition tri_state_ok (n : DirectoryNode) : bool :=
  if isDirectory n && negb (List.length (children n) =? 0)%nat
  then SelState_eqb (sel_state n) (derived_state (children n))
  else true.

(** The tri-state invariant, for every node of the tree. *)
Definition tri_state_invariant (root : DirectoryNode) : bool :=
  forallb tri_state_ok (nodes root).

(** The nodes of [t] whose tri-state disagrees with their children all have
    a path satisfying [S]. *)
Definition bad_within (t : DirectoryNode) (S : string -> Prop) : Prop :=
  forall m, In m (nodes t) -> tri_state_ok m = false -> S (path m).

Definition has_slash (s : string) : bool :=
  existsb (fun c => Ascii.eqb c slash) (list_ascii_of_string s).

(** The shape every scan builds: a child's path is [join(parent, name)] for a
    non-empty entry name without '/', and files have no children. *)
Inductive wf_node : DirectoryNode -> Prop :=
| wf_node_intro n :
    (isDirectory n = false -> children n = []) ->
    (forall c, In c (children n) ->
       path c = join (path n) (name c) /\ name c <> "" /\ has_slash (name c) = false) ->
    (forall c, In c (children n) -> wf_node c) ->
    wf_node n.

(** A tree as [buildTree] makes it: the root path is an absolute path. *)
Definition wf_tree (root : DirectoryNode) : Prop :=
  wf_node root /\ path root <> "".

(** [nodeMap.get] over a list of sibling subtrees, in order. *)
Fixpoint lookup_list (p : string) (l : list DirectoryNode) : option DirectoryNode :=
  match l with
  | [] => None
  | c :: l' => match lookup p c with Some r => Some r | None => lookup_list p l' end
  end.

(** The paths of the directories from the root down to the parent of the
    node with path [p], found by descending the tree structure. *)
Fixpoint ancestor_paths (p : string) (n : DirectoryNode) : option (list string) :=
  if String.eqb (path n) p then Some []
  else (fix go (l : list DirectoryNode) : option (list string) :=
          match l with
          | [] => None
          | c :: l' =>
              match ancestor_paths p c with
              | Some a => Some (path n :: a)
              | None => go l'
              end
          end) (children n).

(** Repeatedly taking [parentPathOf] while the path is present. *)
Fixpoint parent_chain (fuel : nat) (present : string -> bool) (q : string) : list string :=
  match fuel with
  | O => []
  | S fuel' => if present q then q :: parent_chain fuel' present (parentPathOf q) else []
  end.

Definition mem_string (x : string) (l : list string) : bool :=
  existsb (String.eqb x) l.

(** [q] is [p] or lies below it: [q] extends [join(p, "")], the directory
    [p] followed by its separator. *)
Definition is_under (p q : string) : Prop :=
  q = p \/ exists r, q = join p "" ++ r.

(** A rewrite of the flags of a node only. *)
Definition flags_only (f : DirectoryNode -> DirectoryNode) : Prop :=
  forall m, path (f m) = path m /\ children (f m) = children m.

Definition keeps_shape (f : DirectoryNode -> DirectoryNode) : Prop :=
  (forall m, path (f m) = path m /\ name (f m) = name m) /\
  (forall m, wf_node m -> wf_node (f m)).

(** ** Sample trees and a decision procedure for [wf_node] *)

Fixpoint wf_nodeb (n : DirectoryNode) : bool :=
  (isDirectory n || match children n with [] => true | _ => false end) &&
  forallb (fun c => String.eqb (path c) (join (path n) (name c)) &&
                    negb (String.eqb (name c) "") && negb (has_slash (name c)) &&
                    wf_nodeb c) (children n).

Definition file_node (p nm : string) (sel : bool) : DirectoryNode :=
  mkNode p nm false [] false sel false.

Definition dir_node (p nm : string) (cs : list DirectoryNode) (sel part : bool) : DirectoryNode :=
  mkNode p nm true cs true sel part.

Definition count_full (t : DirectoryNode) : nat :=
  List.length (filter (fun m => SelState_eqb (sel_state m) SFull) (nodes t)).

Definition slash_root_tree : DirectoryNode :=
  dir_node "/" "/" [file_node "/a" "a" false; file_node "/b" "b" false] false false.

Definition sample_tree : DirectoryNode :=
  dir_node "/home/u/proj" "proj"
    [dir_node "/home/u/proj/A" "A"
       [file_node "/home/u/proj/A/x" "x" false; file_node "/home/u/proj/A/y" "y" false]
       false false;
     file_node "/home/u/proj/z" "z" false] false false.

(** [sample_tree] with the directory "/home/u/proj/A" collapsed. *)
Definition sample_tree_A_collapsed : DirectoryNode :=
  dir_node "/home/u/proj" "proj"
    [mkNode "/home/u/proj/A" "A" true
       [file_node "/home/u/proj/A/x" "x" false; file_node "/home/u/proj/A/y" "y" false]
       false false false;
     file_node "/home/u/proj/z" "z" false] false false.

(** A selection with a Partial directory, a Full directory and Full files. *)
Definition mixed_selection_tree : DirectoryNode :=
  dir_node "/home/u/proj" "proj"
    [dir_node "/home/u/proj/A" "A"
       [file_node "/home/u/proj/A/x" "x" true; file_node "/home/u/proj/A/y" "y" false]
       false true;
     dir_node "/home/u/proj/B" "B" [file_node "/home/u/proj/B/w" "w" true] true false;
     file_node "/home/u/proj/z" "z" true] false true.

Definition chain_tree : DirectoryNode :=
  dir_node "/r" "r" [dir_node "/r/d" "d" [file_node "/r/d/f" "f" false] false false] false false.

Definition stable_parent_tree : DirectoryNode :=
  dir_node "/r" "r"
    [dir_node "/r/d" "d"
       [file_node "/r/d/f1" "f1" true; file_node "/r/d/f2" "f2" false;
        file_node "/r/d/f3" "f3" false] false true] false true.

Definition one_file_selected_tree : DirectoryNode :=
  dir_node "/r" "r" [file_node "/r/a" "a" true; file_node "/r/b" "b" false] false true.

(** ** [scanDirectory]: the order of the children

    The children are sorted with [a.name.localeCompare(b.name)], whose order
    is the host's collation (ICU).  The functions below take that comparison
    as the parameter [localeCompare]; the properties of the order are proved
    for every comparison that is a total preorder, as a collation is.

    For the examples, [localeCompare_root] is the root collation of the
    Unicode CLDR (ICU's default, which JavaScript uses when no locale is
    given) on ASCII text: the control characters other than tab, LF, VT, FF
    and CR are ignored; whitespace, then punctuation and symbols, then digits,
    then letters come in the CLDR order of [root_order]; letters compare
    case-blind first, and on a tie the first difference in case decides, lower
    case first.  The model's strings are byte strings: the bytes above 127,
    which are not ASCII characters, get a weight after the letters by value;
    the examples use ASCII names only. *)

(** The CLDR root order of the ASCII whitespace, punctuation, symbols and
    digits, by character code: tab, LF, VT, FF, CR, space; then
    _ - , ; : ! ? . and the apostrophe and the double quote; then
    ( ) [ ] { } @ * / \ & # % ` ^ + < = > | ~ $; then the digits 0 to 9. *)
Definition root_order : list nat :=
  [9; 10; 11; 12; 13; 32;
   95; 45; 44; 59; 58; 33; 63; 46; 39; 34; 40; 41; 91; 93; 123; 125; 64; 42; 47; 92;
   38; 35; 37; 96; 94; 43; 60; 61; 62; 124; 126; 36;
   48; 49; 50; 51; 52; 53; 54; 55; 56; 57].

Fixpoint index_of (n : nat) (l : list nat) : option nat :=
  match l with
  | [] => None
  | x :: l' => if Nat.eqb x n then Some 0%nat else option_map S (index_of n l')
  end.

(** The collation element of a character: its primary weight and its case
    (tertiary) weight, or [None] for an ignored character. *)
Definition collation_element (c : ascii) : option (nat * nat) :=
  (let n := nat_of_ascii c in
  if (97 <=? n) && (n <=? 122) then Some (100 + (n - 97), 0)
  else if (65 <=? n) && (n <=? 90) then Some (100 + (n - 65), 1)
  else match index_of n root_order with
       | Some i => Some (i, 0)
       | None => if 128 <=? n then Some (n, 0) else None
       end)%nat.

Definition collation_elements (s : string) : list (nat * nat) :=
  flat_map (fun c => match collation_element c with Some e => [e] | None => [] end)
           (list_ascii_of_string s).

Fixpoint lex_compare (a b : list nat) : comparison :=
  match a, b with
  | [], [] => Eq
  | [], _ => Lt
  | _, [] => Gt
  | x :: a', y :: b' => match Nat.compare x y with Eq => lex_compare a' b' | c => c end
  end.

(** The primary weights decide; on a tie, the case weights. *)
Definition localeCompare_root (a b : string) : comparison :=
  match lex_compare (map fst (collation_elements a)) (map fst (collation_elements b)) with
  | Eq => lex_compare (map snd (collation_elements a)) (map snd (collation_elements b))
  | c => c
  end.

(** A directory entry as [readdir] lists it, with the outcome of [stat] on it:
    [Some d] for a directory ([d = true]) or another file, [None] when [stat]
    throws. *)
Record DirEntry := mkDirEntry { entry_name : string; entry_stat : option bool }.

(** The objects built in the [Promise.all] of [scanDirectory]. *)
Record ScanEntry := mkScanEntry {
  se_name : string; se_path : string; se_isDirectory : bool; se_error : bool }.

Definition scan_entry (dir : string) (e : DirEntry) : ScanEntry :=
  match entry_stat e with
  | Some d => mkScanEntry (entry_name e) (join dir (entry_name e)) d false
  | None => mkScanEntry (entry_name e) (join dir (entry_name e)) false true
  end.

(** [Array.prototype.sort] is stable; with a comparator that is a total
    preorder every stable sort returns the same list, computed here by
    insertion. *)
Fixpoint insert_by {A} (cmp : A -> A -> comparison) (x : A) (l : list A) : list A :=
  match l with
  | [] => [x]
  | y :: l' => match cmp x y with Gt => y :: insert_by cmp x l' | _ => x :: y :: l' end
  end.

Fixpoint sort_by {A} (cmp : A -> A -> comparison) (l : list A) : list A :=
  match l with
  | [] => []
  | x :: l' => insert_by cmp x (sort_by cmp l')
  end.

Section ScanOrder.
Variable localeCompare : string -> string -> comparison.

(** The comparator handed to [sorted.sort]. *)
Definition scan_compare (a b : ScanEntry) : comparison :=
  if se_isDirectory a && negb (se_isDirectory b) then Lt
  else if negb (se_isDirectory a) && se_isDirectory b then Gt
  else localeCompare (se_name a) (se_name b).

(** The children [scanDirectory] pushes on the node with path [p] and name
    [nm], from the result of [readdir] ([None] when it throws), as they are
    when pushed: the directories among them are scanned afterwards, see
    [scanDirectory]. *)
Definition scanDirectory_children (ignoreDirectories : list string) (p nm : string)
  (entries : option (list DirEntry)) : list DirectoryNode :=
  match entries with
  | None => []
  | Some es =>
      if existsb (String.eqb nm) ignoreDirectories then []
      else
        let sorted := sort_by scan_compare (map (scan_entry p) es) in
        map (fun e => mkNode (se_path e) (se_name e) (se_isDirectory e) [] false false false)
            (filter (fun e => negb (se_error e)) sorted)
  end.

(** [scanDirectory(node)], with [fs] giving the result of [readdir] (and of
    [stat] on each entry) for every path.  Each pushed child that is a
    directory is then scanned in turn; the tree holds the child object, so it
    shows the scanned child.  The counters are left out.  [fuel] bounds the
    depth of the recursion, which the source leaves to the file system. *)
Fixpoint scanDirectory (fuel : nat) (fs : string -> option (list DirEntry))
  (ignoreDirectories : list string) (node : DirectoryNode) : DirectoryNode :=
  match fuel with
  | O => node
  | S fuel' =>
      mkNode (path node) (name node) (isDirectory node)
        (children node ++
         map (fun c => if isDirectory c then scanDirectory fuel' fs ignoreDirectories c else c)
             (scanDirectory_children ignoreDirectories (path node) (name node)
                                     (fs (path node))))%list
        (expanded node) (selected node) (partiallySelected node)
  end.

(** The comparator as a relation. *)
Definition scan_le (a b : ScanEntry) : Prop := scan_compare a b <> Gt.

(** The children order the comparator imposes, on nodes: every directory
    before every file, and within a kind ascending [localeCompare] order. *)
Definition node_le (a b : DirectoryNode) : Prop :=
  (isDirectory a = true \/ isDirectory b = false) /\
  (isDirectory a = isDirectory b -> localeCompare (name a) (name b) <> Gt).

End ScanOrder.

(** ** [updateVisibleNodes] *)

(** The placeholder row shown for an expanded, not yet loaded ignored
    directory. *)
Definition placeholder (node : DirectoryNode) : DirectoryNode :=
  mkNode (join (path node) "...") ("... (large directory, " ++ name node ++ ")") true []
         false false false.

(** The [while (stack.length > 0)] loop; the top of the stack is the head of
    the list, and every entry is pushed visible. *)
Fixpoint visible_loop (fuel : nat) (ignoreDirectories : list string)
  (stack visibleNodes : list DirectoryNode) : list DirectoryNode :=
  match fuel with
  | O => visibleNodes
  | S fuel' =>
      match stack with
      | [] => visibleNodes
      | node :: stack' =>
          let visibleNodes' := (visibleNodes ++ [node])%list in
          if isDirectory node && expanded node then
            if existsb (String.eqb (name node)) ignoreDirectories &&
               (List.length (children node) =? 0)%nat
            then visible_loop fuel' ignoreDirectories stack' (visibleNodes' ++ [placeholder node])%list
            else visible_loop fuel' ignoreDirectories (children node ++ stack')%list visibleNodes'
          else visible_loop fuel' ignoreDirectories stack' visibleNodes'
      end
  end.

(** [Array.prototype.findIndex(node => node.path === p)]. *)
Fixpoint findIndex_path (p : string) (l : list DirectoryNode) : Z :=
  match l with
  | [] => -1
  | x :: l' => if String.eqb (path x) p then 0 else
               let i := findIndex_path p l' in if (i =? -1)%Z then -1 else i + 1
  end%Z.

Definition set_expanded (n : DirectoryNode) : DirectoryNode :=
  mkNode (path n) (name n) (isDirectory n) (children n) true (selected n) (partiallySelected n).

(** [updateVisibleNodes()] on the state ([root], [visibleNodes],
    [cursorPosition]); [None] when reading the node under a negative cursor
    throws.  The new root, list and cursor are returned. *)
Definition updateVisibleNodes (ignoreDirectories : list string)
  (root : option DirectoryNode) (visibleNodes : list DirectoryNode) (cursorPosition : Z)
  : option (option DirectoryNode * list DirectoryNode * Z) :=
  let len := Z.of_nat (List.length visibleNodes) in
  let current :=
    if (0 <? len)%Z && (cursorPosition <? len)%Z then
      if (cursorPosition <? 0)%Z then None
      else Some (option_map path (nth_error visibleNodes (Z.to_nat cursorPosition)))
    else Some None in
  match current with
  | None => None
  | Some currentNodePath =>
      let root' := option_map set_expanded root in
      let visible :=
        match root' with
        | Some r => visible_loop (S (List.length (nodes r))) ignoreDirectories [r] []
        | None => []
        end in
      let nlen := Z.of_nat (List.length visible) in
      let c1 :=
        match currentNodePath with
        | Some p =>
            if String.eqb p "" then 0%Z
            else
              let newIndex := findIndex_path p visible in
              if negb (newIndex =? -1)%Z then newIndex
              else Z.min cursorPosition (nlen - 1)
        | None => 0%Z
        end in
      let c2 :=
        if (c1 <? 0)%Z || (nlen =? 0)%Z then 0%Z
        else if (nlen <=? c1)%Z then (nlen - 1)%Z
        else c1 in
      Some (root', visible, c2)
  end.

(** ** Further functions of the explorer *)

(** The rows of the visible list written as a recursion over the tree, to
    compare with the stack loop of [updateVisibleNodes]: a node, then, for an
    expanded directory, either the placeholder (ignored name, no children) or
    the rows of its children in order. *)
Fixpoint visible_rec (ignoreDirectories : list string) (n : DirectoryNode) : list DirectoryNode :=
  n :: (if isDirectory n && expanded n then
          if existsb (String.eqb (name n)) ignoreDirectories &&
             (List.length (children n) =? 0)%nat
          then [placeholder n]
          else flat_map (visible_rec ignoreDirectories) (children n)
        else []).

(** [moveUp()] and [moveDown()] on [cursorPosition]. *)
Definition moveUp (cursorPosition : Z) : Z :=
  if (cursorPosition >? 0)%Z then (cursorPosition - 1)%Z else cursorPosition.

Definition moveDown (visibleNodes : list DirectoryNode) (cursorPosition : Z) : Z :=
  if (cursorPosition <? Z.of_nat (List.length visibleNodes) - 1)%Z
  then (cursorPosition + 1)%Z else cursorPosition.

(** The keys ['\u001B[A'] and ['\u001B[B'] (up and down arrow). *)
Definition up_arrow : string := String (ascii_of_nat 27) "[A".
Definition down_arrow : string := String (ascii_of_nat 27) "[B".

(** The arrow-key branches of the ['data'] handler of [start()], on the
    cursor: up arrow calls [moveUp()], down arrow [moveDown()], and the
    [render()] that follows leaves the state as it is.  The other keys go to
    the other branches, which are not modelled here ([None]). *)
Definition arrow_key (visibleNodes : list DirectoryNode) (key : string)
  (cursorPosition : Z) : option Z :=
  if String.eqb key up_arrow then Some (moveUp cursorPosition)
  else if String.eqb key down_arrow then Some (moveDown visibleNodes cursorPosition)
  else None.

(** A sequence of key presses handled in turn, the visible list unchanged. *)
Fixpoint arrow_keys (visibleNodes : list DirectoryNode) (keys : list string)
  (cursorPosition : Z) : option Z :=
  match keys with
  | [] => Some cursorPosition
  | key :: keys' =>
      match arrow_key visibleNodes key cursorPosition with
      | Some c => arrow_keys visibleNodes keys' c
      | None => None
      end
  end.

(** [(s.match(/\//g) || []).length]: the number of slashes in [s]. *)
Definition count_slashes (s : string) : Z :=
  Z.of_nat (List.length (filter (fun c => Ascii.eqb c slash) (list_ascii_of_string s))).

(** The [depth] by which [renderVisibleNode] indents the row of [node]: the
    slashes of its path minus those of the root's path ([root?.path]). *)
Definition render_depth (root : option DirectoryNode) (node : DirectoryNode) : Z :=
  (count_slashes (path node) -
   match root with Some r => count_slashes (path r) | None => 0 end)%Z.

(** [getSelectedFiles()]: the selected paths whose [nodeMap] entry is not
    a directory ([node && !node.isDirectory]). *)
Definition getSelectedFiles (root : option DirectoryNode) : list string :=
  filter (fun p => match root with
                   | Some r => match lookup p r with
                               | Some node => negb (isDirectory node)
                               | None => false
                               end
                   | None => false
                   end) (getSelectedPaths root).

Section LoadLarge.
Variable localeCompare : string -> string -> comparison.

(** [loadLargeDirectoryContents(node)] on the node, from the result of
    [readdir] ([None]: it throws and the node is left as it is).  An entry
    whose [stat] fails becomes [null] and is filtered out before the sort;
    the counters and the re-render are left out. *)
Definition loadLargeDirectoryContents (entries : option (list DirEntry)) (node : DirectoryNode)
  : DirectoryNode :=
  match entries with
  | None => node
  | Some es =>
      let sorted :=
        map (fun e => match entry_stat e with
                      | Some d => Some (mkScanEntry (entry_name e) (join (path node) (entry_name e)) d false)
                      | None => None
                      end) es in
      let validEntries :=
        flat_map (fun o => match o with Some x => [x] | None => [] end) sorted in
      let validSorted := sort_by (scan_compare localeCompare) validEntries in
      mkNode (path node) (name node) (isDirectory node)
        (children node ++
         map (fun e => mkNode (se_path e) (se_name e) (se_isDirectory e) [] false false false)
             validSorted)%list
        true (selected node) (partiallySelected node)
  end.

End LoadLarge.

(** ** [isBinaryFile] *)

Fixpoint bytes_eqb (a b : list Byte.byte) : bool :=
  match a, b with
  | [], [] => true
  | x :: a', y :: b' => Nat.eqb (Byte.to_nat x) (Byte.to_nat y) && bytes_eqb a' b'
  | _, _ => false
  end.

Definition binarySignatures : list (list Byte.byte) :=
  [ [Byte.xff; Byte.xd8; Byte.xff];
    [Byte.x89; Byte.x50; Byte.x4e; Byte.x47];
    [Byte.x50; Byte.x4b; Byte.x03; Byte.x04];
    [Byte.x25; Byte.x50; Byte.x44; Byte.x46];
    [Byte.x47; Byte.x49; Byte.x46; Byte.x38];
    [Byte.x52; Byte.x49; Byte.x46; Byte.x46];
    [Byte.x1f; Byte.x8b];
    [Byte.x42; Byte.x4d] ].

(** [isBinaryFile(filePath)] on the file's bytes ([None]: [readFileSync]
    throws).  [count > buffer.length * 0.1] is written [10 * count > length]:
    the double [length * 0.1] is never below [length / 10] and, for the
    lengths up to 4096 met here, lies too close to it to change the outcome of
    the comparison with an integer. *)
Definition isBinaryFile (contents : option (list Byte.byte)) : bool :=
  match contents with
  | None => false
  | Some bytes =>
      let buffer := firstn 4096 bytes in
      if existsb (fun signature => bytes_eqb (firstn (List.length signature) buffer) signature)
                 binarySignatures
      then true
      else
        let nullCount := List.length (filter (fun b => Nat.eqb (Byte.to_nat b) 0) buffer) in
        let controlCount :=
          List.length (filter (fun b => negb (Nat.eqb (Byte.to_nat b) 0) &&
                                        Nat.ltb (Byte.to_nat b) 9) buffer) in
        Nat.ltb (List.length buffer) (10 * nullCount) ||
        Nat.ltb (List.length buffer) (10 * controlCount)
  end.

(** ** [DirectoryTree.expandNode] of [src/src/treeUI.ts]

    The node class is [DirectoryTreeNode] of [src/unnamed/part_000]; its
    [parent] back-pointer is left out.  The selection field has the type
    [SelectState] of [./selectState], a module that is not part of the sources:
    it is kept abstract, with the value [SelectState.None] new nodes get. *)
Section DirectoryTreeModel.
Context {SelectState : Type} (SelectState_None : SelectState)
  (localeCompare : string -> string -> comparison).

Inductive DirectoryTreeNode : Type := mkTreeNode {
  t_path : string;
  t_name : string;
  t_isDirectory : bool;
  t_children : list DirectoryTreeNode;
  t_expanded : bool;
  t_selected : SelectState;
  t_loaded : bool }.

Fixpoint t_lookup (p : string) (n : DirectoryTreeNode) : option DirectoryTreeNode :=
  if String.eqb (t_path n) p then Some n
  else (fix go (l : list DirectoryTreeNode) : option DirectoryTreeNode :=
          match l with
          | [] => None
          | c :: l' => match t_lookup p c with Some r => Some r | None => go l' end
          end) (t_children n).

Fixpoint t_update_at (q : string) (f : DirectoryTreeNode -> DirectoryTreeNode)
  (n : DirectoryTreeNode) : DirectoryTreeNode :=
  match n with
  | mkTreeNode p nm d cs e s l =>
      if String.eqb p q then f n
      else mkTreeNode p nm d (map (t_update_at q f) cs) e s l
  end.

(** [node.toggleExpand()]: the new node and the returned [expanded]. *)
Definition toggleExpand (n : DirectoryTreeNode) : DirectoryTreeNode * bool :=
  match n with
  | mkTreeNode p nm d cs e s l =>
      let e' := if d then negb e else e in (mkTreeNode p nm d cs e' s l, e')
  end.

Definition tree_compare (a b : DirectoryTreeNode) : comparison :=
  if t_isDirectory a && negb (t_isDirectory b) then Lt
  else if negb (t_isDirectory a) && t_isDirectory b then Gt
  else localeCompare (t_name a) (t_name b).

(** The children order [tree_compare] imposes, as a relation. *)
Definition tree_le (a b : DirectoryTreeNode) : Prop :=
  (t_isDirectory a = true \/ t_isDirectory b = false) /\
  (t_isDirectory a = t_isDirectory b -> localeCompare (t_name a) (t_name b) <> Gt).

(** [loadChildrenForNode(node)]; [readdirSync] gives the entries' names and
    whether they are directories, or throws ([None]). *)
Definition loadChildrenForNode (readdirSync : string -> option (list (string * bool)))
  (n : DirectoryTreeNode) : DirectoryTreeNode :=
  match readdirSync (t_path n) with
  | None => n
  | Some entries =>
      let added :=
        map (fun '(nm, d) => mkTreeNode (path_join (t_path n) nm) nm d [] false SelectState_None false)
            entries in
      match n with
      | mkTreeNode p nm d cs e s l =>
          mkTreeNode p nm d (sort_by tree_compare (cs ++ added)%list) e s l
      end
  end.

Definition set_loaded (n : DirectoryTreeNode) : DirectoryTreeNode :=
  match n with mkTreeNode p nm d cs e s _ => mkTreeNode p nm d cs e s true end.

(** The effect of [expandNode] on the node object it found. *)
Definition expand_found (readdirSync : string -> option (list (string * bool)))
  (node : DirectoryTreeNode) : DirectoryTreeNode :=
  let (node1, isExpanding) := toggleExpand node in
  if isExpanding && negb (t_loaded node1)
  then set_loaded (loadChildrenForNode readdirSync node1)
  else node1.

(** [expandNode(path)] on the tree with root [root]. *)
Definition expandNode (readdirSync : string -> option (list (string * bool)))
  (root : DirectoryTreeNode) (p : string) : DirectoryTreeNode :=
  match t_lookup p root with
  | None => root
  | Some node =>
      if negb (t_isDirectory node) then root
      else t_update_at (t_path node) (expand_found readdirSync) root
  end.

(** Induction over a tree node and, through [t_children], its subtree. *)
Definition t_node_ind' (P : DirectoryTreeNode -> Prop)
  (H : forall n, (forall c, In c (t_children n) -> P c) -> P n) :
  forall n, P n :=
  fix F n :=
    match n with
    | mkTreeNode p nm d cs e s l =>
        H (mkTreeNode p nm d cs e s l)
          ((fix G (l : list DirectoryTreeNode) : forall c, In c l -> P c :=
              match l with
              | [] => fun c (i : In c []) => False_ind (P c) i
              | x :: l' => fun c (i : In c (x :: l')) =>
                  match i with
                  | or_introl e => eq_ind x P (F x) c e
                  | or_intror i' => G l' c i'
                  end
              end) cs)
    end.

(** All nodes of a subtree in pre-order. *)
Fixpoint t_nodes (n : DirectoryTreeNode) : list DirectoryTreeNode :=
  n :: flat_map t_nodes (t_children n).

End DirectoryTreeModel.

(** ** [FileExport.removeFile] of [src/src/fileExport.ts] *)
Module FileExport.

Fixpoint findIndex (p : string) (l : list string) : Z :=
  match l with
  | [] => -1
  | x :: l' => if String.eqb x p then 0 else
               let i := findIndex p l' in if (i =? -1)%Z then -1 else i + 1
  end%Z.

(** [l.splice(start, 1)], the list it leaves: a negative [start] counts from
    the end (clamped at 0), one past the end removes nothing. *)
Definition splice1 (l : list string) (start : Z) : list string :=
  let len := Z.of_nat (List.length l) in
  let s := if (start <? 0)%Z then Z.max (len + start) 0 else Z.min start len in
  (firstn (Z.to_nat s) l ++ skipn (S (Z.to_nat s)) l)%list.

Definition removeFile (selectedPaths : list string) (p : string) : list string :=
  splice1 selectedPaths (findIndex p selectedPaths).

End FileExport.

(** * Lemmas *)

(** ** Strings and paths *)

Lemma string_app_assoc (a b c : string) : (a ++ b) ++ c = a ++ (b ++ c).
Proof. induction a as [|x a IH]; simpl; [reflexivity | now rewrite IH]. Qed.

Lemma string_app_nil_r (a : string) : a ++ "" = a.
Proof. induction a as [|x a IH]; simpl; [reflexivity | now rewrite IH]. Qed.

Lemma string_length_app (a b : string) :
  String.length (a ++ b) = (String.length a + String.length b)%nat.
Proof. induction a as [|x a IH]; simpl; [reflexivity | now rewrite IH]. Qed.

Lemma lastIndexOf_from_app s1 s2 c i acc :
  lastIndexOf_from (s1 ++ s2) c i acc =
  lastIndexOf_from s2 c (i + Z.of_nat (String.length s1)) (lastIndexOf_from s1 c i acc).
Proof.
  revert i acc; induction s1 as [|a s1 IH]; intros i acc; simpl.
  - now rewrite Z.add_0_r.
  - rewrite IH. f_equal. lia.
Qed.

Lemma lastIndexOf_from_absent s c i acc :
  existsb (fun x => Ascii.eqb x c) (list_ascii_of_string s) = false ->
  lastIndexOf_from s c i acc = acc.
Proof.
  revert i acc; induction s as [|a s IH]; intros i acc H; simpl in *; [reflexivity|].
  apply orb_false_iff in H as [H1 H2]. rewrite H1. now apply IH.
Qed.

Lemma lastIndexOf_from_range s c i acc :
  lastIndexOf_from s c i acc = acc \/
  (i <= lastIndexOf_from s c i acc < i + Z.of_nat (String.length s))%Z.
Proof.
  revert i acc; induction s as [|a s IH]; intros i acc; simpl; [now left|].
  destruct (IH (i + 1)%Z (if Ascii.eqb a c then i else acc)) as [H|H].
  - rewrite H. destruct (Ascii.eqb a c); [right; lia | now left].
  - right; lia.
Qed.

Lemma substring0_length_prefix (p t : string) :
  String.substring 0 (String.length p) (p ++ t) = p.
Proof. induction p as [|a p IH]; simpl; [now destruct t | now rewrite IH]. Qed.

Lemma substring0_length n s :
  String.length (String.substring 0 n s) = Nat.min n (String.length s).
Proof.
  revert n; induction s as [|a s IH]; intros [|n]; simpl; try reflexivity.
  now rewrite IH.
Qed.

Lemma parentPathOf_join p a :
  endsWithSlash p = false -> has_slash a = false ->
  parentPathOf (join p a) = p.
Proof.
  intros Hp Ha. unfold parentPathOf, join, lastIndexOf, substring0. rewrite Hp.
  rewrite lastIndexOf_from_app. simpl.
  rewrite lastIndexOf_from_absent by exact Ha.
  rewrite Nat2Z.id. apply substring0_length_prefix.
Qed.

Lemma parentPathOf_length_le s :
  (String.length (parentPathOf s) <= String.length s)%nat.
Proof.
  unfold parentPathOf, substring0. rewrite substring0_length. lia.
Qed.

Lemma parentPathOf_length_lt s :
  s <> "" -> (String.length (parentPathOf s) < String.length s)%nat.
Proof.
  intros Hs. unfold parentPathOf, substring0, lastIndexOf. rewrite substring0_length.
  assert (0 < String.length s)%nat by (destruct s; [congruence | simpl; lia]).
  destruct (lastIndexOf_from_range s slash 0 (-1)) as [E|E]; rewrite ?E; simpl; lia.
Qed.

Lemma get_In n s c : String.get n s = Some c -> In c (list_ascii_of_string s).
Proof.
  revert n; induction s as [|a s IH]; intros [|n] H; simpl in *; try discriminate.
  - injection H as ->. now left.
  - right. eapply IH; eassumption.
Qed.

Lemma join_app p a : join p a = join p "" ++ a.
Proof.
  unfold join. destruct (endsWithSlash p).
  - now rewrite string_app_nil_r.
  - rewrite string_app_assoc. reflexivity.
Qed.

Lemma get_some n s : (n < String.length s)%nat -> exists c, String.get n s = Some c.
Proof.
  revert n; induction s as [|a s IH]; intros [|n] H; simpl in *; try lia.
  - now exists a.
  - apply IH. lia.
Qed.

Lemma endsWithSlash_app x a :
  a <> "" -> has_slash a = false -> endsWithSlash (x ++ a) = false.
Proof.
  intros Ha Hs. unfold endsWithSlash. rewrite string_length_app.
  destruct (String.get (String.length a - 1) a) as [c|] eqn:Hg.
  - replace (String.length x + String.length a - 1)%nat
      with ((String.length a - 1) + String.length x)%nat
      by (destruct a; [congruence | simpl; lia]).
    rewrite <- append_correct2, Hg.
    destruct (Ascii.eqb c slash) eqn:Hc; [|reflexivity].
    apply get_In in Hg. unfold has_slash in Hs.
    assert (existsb (fun c0 => Ascii.eqb c0 slash) (list_ascii_of_string a) = true)
      by (apply existsb_exists; exists c; auto).
    congruence.
  - exfalso. destruct (get_some (String.length a - 1) a) as [c Hc].
    + destruct a; [congruence | simpl; lia].
    + congruence.
Qed.

Lemma endsWithSlash_join p a :
  a <> "" -> has_slash a = false -> endsWithSlash (join p a) = false.
Proof. intros. rewrite join_app. now apply endsWithSlash_app. Qed.

Lemma join_length p a :
  a <> "" -> (String.length p < String.length (join p a))%nat.
Proof.
  intros Ha. unfold join. destruct (endsWithSlash p); rewrite string_length_app;
  destruct a; simpl; [congruence | lia | congruence | lia].
Qed.

(** ** Trees, lookup and update *)

Lemma nodes_unfold n : nodes n = n :: flat_map nodes (children n).
Proof. now destruct n. Qed.

Lemma lookup_unfold p n :
  lookup p n = if String.eqb (path n) p then Some n else lookup_list p (children n).
Proof.
  destruct n as [pn nm d cs e s ps]; simpl.
  destruct (String.eqb pn p); [reflexivity|].
  induction cs as [|c cs IH]; simpl; [reflexivity|].
  destruct (lookup p c); [reflexivity | exact IH].
Qed.

Lemma in_nodes_child n c m : In c (children n) -> In m (nodes c) -> In m (nodes n).
Proof.
  intros Hc Hm. rewrite nodes_unfold. right. apply in_flat_map. eauto.
Qed.

Lemma in_nodes_inv n m :
  In m (nodes n) -> m = n \/ exists c, In c (children n) /\ In m (nodes c).
Proof.
  rewrite nodes_unfold. intros [H|H]; [now left|]. right. now apply in_flat_map in H.
Qed.

Lemma lookup_list_inv p l m :
  lookup_list p l = Some m -> exists c, In c l /\ lookup p c = Some m.
Proof.
  induction l as [|c l IH]; simpl; [discriminate|].
  destruct (lookup p c) eqn:E.
  - intros [= <-]. exists c. auto.
  - intros H. destruct (IH H) as [c' [? ?]]. exists c'. auto.
Qed.

Lemma lookup_spec p n m : lookup p n = Some m -> path m = p /\ In m (nodes n).
Proof.
  revert m. induction n as [n IH] using node_ind'. intros m.
  rewrite lookup_unfold. destruct (String.eqb (path n) p) eqn:E.
  - intros [= <-]. apply String.eqb_eq in E. split; [exact E|]. rewrite nodes_unfold. now left.
  - intros H. destruct (lookup_list_inv _ _ _ H) as [c [Hc Hl]].
    destruct (IH c Hc m Hl) as [H1 H2]. split; [exact H1|]. eapply in_nodes_child; eauto.
Qed.

Lemma lookup_list_complete p l :
  (forall c, In c l -> In p (paths c) -> exists m, lookup p c = Some m) ->
  (exists c, In c l /\ In p (paths c)) -> exists m, lookup_list p l = Some m.
Proof.
  induction l as [|x l IHl]; intros Hall [c [Hc Hp]]; [destruct Hc|]. simpl.
  destruct (lookup p x) eqn:E; [eauto|].
  destruct Hc as [<-|Hc].
  - destruct (Hall x (or_introl eq_refl) Hp) as [m Hm]. congruence.
  - apply IHl; eauto. intros c' Hc'. apply Hall. now right.
Qed.

Lemma lookup_complete p n : In p (paths n) -> exists m, lookup p n = Some m.
Proof.
  induction n as [n IH] using node_ind'. unfold paths. rewrite nodes_unfold.
  intros [H|H]; rewrite lookup_unfold.
  - rewrite H, String.eqb_refl. eauto.
  - destruct (String.eqb (path n) p); [eauto|].
    apply in_map_iff in H as [m [<- Hm]]. apply in_flat_map in Hm as [c [Hc Hm]].
    apply lookup_list_complete; [exact IH|].
    exists c. split; [exact Hc|]. unfold paths. now apply in_map.
Qed.

Lemma lookup_none p n : ~ In p (paths n) -> lookup p n = None.
Proof.
  intros H. destruct (lookup p n) as [m|] eqn:E; [|reflexivity].
  exfalso. apply H. apply lookup_spec in E as [<- Hm]. unfold paths. now apply in_map.
Qed.

Lemma wf_node_inv n :
  wf_node n ->
  (isDirectory n = false -> children n = []) /\
  (forall c, In c (children n) ->
     path c = join (path n) (name c) /\ name c <> "" /\ has_slash (name c) = false) /\
  (forall c, In c (children n) -> wf_node c).
Proof. intros H. inversion H; subst. auto. Qed.

Lemma wf_nodes n m : wf_node n -> In m (nodes n) -> wf_node m.
Proof.
  induction n as [n IH] using node_ind'. intros Hw Hm.
  destruct (in_nodes_inv _ _ Hm) as [->|[c [Hc Hmc]]]; [exact Hw|].
  apply wf_node_inv in Hw as (_ & _ & Hw). eauto.
Qed.

Lemma wf_path_length n m :
  wf_node n -> In m (nodes n) -> (String.length (path n) <= String.length (path m))%nat.
Proof.
  induction n as [n IH] using node_ind'. intros Hw Hm.
  destruct (in_nodes_inv _ _ Hm) as [->|[c [Hc Hmc]]]; [lia|].
  apply wf_node_inv in Hw as (_ & Hj & Hw).
  destruct (Hj c Hc) as (Hp & Hn & _).
  specialize (IH c Hc (Hw c Hc) Hmc). rewrite Hp in IH.
  pose proof (join_length (path n) (name c) Hn). lia.
Qed.

Lemma wf_no_trailing_slash n m :
  wf_node n -> endsWithSlash (path n) = false -> In m (nodes n) ->
  endsWithSlash (path m) = false.
Proof.
  induction n as [n IH] using node_ind'. intros Hw He Hm.
  destruct (in_nodes_inv _ _ Hm) as [->|[c [Hc Hmc]]]; [exact He|].
  apply wf_node_inv in Hw as (_ & Hj & Hw).
  destruct (Hj c Hc) as (Hp & Hn & Hs).
  apply (IH c Hc (Hw c Hc)); [|exact Hmc].
  rewrite Hp. now apply endsWithSlash_join.
Qed.

Lemma is_under_refl p : is_under p p.
Proof. now left. Qed.

Lemma join_empty_ext x : exists s, join x "" = x ++ s.
Proof. unfold join. destruct (endsWithSlash x); eauto. Qed.

Lemma is_under_child p a q :
  is_under (join p a) q -> is_under p q.
Proof.
  intros [->|[r ->]]; right.
  - exists a. apply join_app.
  - destruct (join_empty_ext (join p a)) as [s ->].
    rewrite (join_app p a). exists (a ++ s ++ r).
    now rewrite !string_app_assoc.
Qed.

Lemma wf_under n m : wf_node n -> In m (nodes n) -> is_under (path n) (path m).
Proof.
  induction n as [n IH] using node_ind'. intros Hw Hm.
  destruct (in_nodes_inv _ _ Hm) as [->|[c [Hc Hmc]]]; [apply is_under_refl|].
  apply wf_node_inv in Hw as (_ & Hj & Hw).
  destruct (Hj c Hc) as (Hp & _ & _).
  specialize (IH c Hc (Hw c Hc) Hmc). rewrite Hp in IH.
  eapply is_under_child; eauto.
Qed.

Lemma lookup_wf p t n : wf_node t -> lookup p t = Some n -> wf_node n.
Proof. intros Hw Hl. apply lookup_spec in Hl as [_ Hn]. eapply wf_nodes; eauto. Qed.

(** ** update_at *)

Lemma update_at_absent q f n : ~ In q (paths n) -> update_at q f n = n.
Proof.
  induction n as [n IH] using node_ind'. intros Hq.
  destruct n as [pn nm d cs e s ps]; simpl in *.
  destruct (String.eqb pn q) eqn:E.
  - apply String.eqb_eq in E. exfalso. apply Hq. unfold paths. simpl. now left.
  - f_equal. rewrite <- (map_id cs) at 2. apply map_ext_in. intros c Hc.
    apply IH; [exact Hc|]. intros Hc'. apply Hq. unfold paths. simpl. right.
    apply in_map_iff in Hc' as [m [<- Hm]]. apply in_map. apply in_flat_map. eauto.
Qed.

Lemma lookup_update_same q f t :
  (forall m, path (f m) = path m) ->
  lookup q (update_at q f t) = option_map f (lookup q t).
Proof.
  intros Hf. induction t as [t IH] using node_ind'.
  destruct t as [pn nm d cs e s ps]. rewrite (lookup_unfold q (mkNode _ _ _ _ _ _ _)).
  simpl update_at. simpl path. destruct (String.eqb pn q) eqn:E.
  - rewrite lookup_unfold, Hf. simpl. rewrite E. reflexivity.
  - rewrite lookup_unfold. simpl. rewrite E. simpl in IH. clear E.
    induction cs as [|c cs IHcs]; simpl; [reflexivity|].
    rewrite (IH c (or_introl eq_refl)).
    destruct (lookup q c); simpl; [reflexivity|].
    apply IHcs. intros c' Hc'. apply IH. now right.
Qed.


Lemma lookup_update_none q f p t :
  flags_only f -> lookup p t = None -> lookup p (update_at q f t) = None.
Proof.
  intros Hf. induction t as [t IH] using node_ind'. intros Hl.
  destruct t as [pn nm d cs e s ps]. rewrite lookup_unfold in Hl. simpl in Hl, IH.
  simpl update_at. destruct (String.eqb pn p) eqn:Ep; [discriminate|].
  destruct (String.eqb pn q) eqn:Eq.
  - rewrite lookup_unfold. destruct (Hf (mkNode pn nm d cs e s ps)) as [H1 H2].
    rewrite H1, H2. simpl. rewrite Ep. exact Hl.
  - rewrite lookup_unfold. simpl. rewrite Ep. clear Ep Eq.
    induction cs as [|c cs IHcs]; simpl in *; [reflexivity|].
    destruct (lookup p c) eqn:Ec; [discriminate|].
    rewrite (IH c (or_introl eq_refl) Ec).
    apply IHcs; [intros c' Hc'; apply IH; now right | exact Hl].
Qed.

Lemma lookup_update_other q f p t n :
  flags_only f -> lookup p t = Some n -> ~ In q (paths n) ->
  lookup p (update_at q f t) = Some n.
Proof.
  intros Hf. induction t as [t IH] using node_ind'. intros Hl Hq.
  destruct (String.eqb (path t) p) eqn:Ep.
  - rewrite lookup_unfold, Ep in Hl. injection Hl as <-.
    rewrite update_at_absent by exact Hq. rewrite lookup_unfold, Ep. reflexivity.
  - destruct t as [pn nm d cs e s ps]. rewrite lookup_unfold in Hl. simpl in Hl, IH, Ep.
    rewrite Ep in Hl. simpl update_at. destruct (String.eqb pn q) eqn:Eq.
    + rewrite lookup_unfold. destruct (Hf (mkNode pn nm d cs e s ps)) as [H1 H2].
      rewrite H1, H2. simpl. rewrite Ep. exact Hl.
    + rewrite lookup_unfold. simpl. rewrite Ep. clear Ep Eq.
      induction cs as [|c cs IHcs]; simpl in *; [discriminate|].
      destruct (lookup p c) eqn:Ec.
      * injection Hl as ->. now rewrite (IH c (or_introl eq_refl) Ec).
      * rewrite (lookup_update_none q f p c Hf Ec).
        apply IHcs; [intros c' Hc'; apply IH; now right | exact Hl].
Qed.

Lemma paths_update_at q f t :
  (forall m, paths (f m) = paths m) -> paths (update_at q f t) = paths t.
Proof.
  intros Hf. induction t as [t IH] using node_ind'.
  destruct t as [pn nm d cs e s ps]; simpl update_at.
  destruct (String.eqb pn q); [apply Hf|].
  unfold paths in *. simpl in *. f_equal. clear -IH.
  induction cs as [|c cs IHcs]; simpl; [reflexivity|].
  rewrite !map_app, (IH c (or_introl eq_refl)). f_equal.
  apply IHcs. intros c' Hc'. apply IH. now right.
Qed.

Lemma paths_setSelectionRecursive s n : paths (setSelectionRecursive s n) = paths n.
Proof.
  induction n as [n IH] using node_ind'.
  destruct n as [pn nm d cs e s' ps]; simpl.
  destruct d; [|reflexivity]. unfold paths in *. simpl in *. f_equal. clear -IH.
  induction cs as [|c cs IHcs]; simpl; [reflexivity|].
  rewrite !map_app, (IH c (or_introl eq_refl)). f_equal.
  apply IHcs. intros c' Hc'. apply IH. now right.
Qed.

Lemma paths_set_selection a b n : paths (set_selection a b n) = paths n.
Proof. now destruct n. Qed.

Lemma flags_only_set_selection a b : flags_only (set_selection a b).
Proof. intros m. now destruct m. Qed.

Lemma flags_only_updateDirectorySelectionState :
  flags_only updateDirectorySelectionState.
Proof.
  intros m. unfold updateDirectorySelectionState.
  destruct (negb (isDirectory m) || (List.length (children m) =? 0)%nat); [auto|].
  destruct (forallb _ _); [|destruct (existsb _ _)]; apply flags_only_set_selection.
Qed.

Lemma flags_only_paths f : flags_only f -> forall m, paths (f m) = paths m.
Proof.
  intros Hf m. destruct (Hf m) as [H1 H2]. unfold paths. rewrite !nodes_unfold.
  simpl. now rewrite H1, H2.
Qed.

Lemma setSelectionRecursive_all s n m :
  wf_node n -> In m (nodes (setSelectionRecursive s n)) ->
  selected m = s /\ partiallySelected m = false.
Proof.
  revert m. induction n as [n IH] using node_ind'. intros m Hw Hm.
  pose proof (wf_node_inv _ Hw) as (Hfile & _ & Hwc).
  destruct n as [pn nm d cs e s' ps]. simpl in *.
  destruct Hm as [<-|Hm]; [auto|].
  destruct d.
  - apply in_flat_map in Hm as [c' [Hc' Hm]]. apply in_map_iff in Hc' as [c [<- Hc]].
    eapply IH; eauto.
  - rewrite (Hfile eq_refl) in Hm. destruct Hm.
Qed.

Lemma mem_string_spec x l : mem_string x l = true <-> In x l.
Proof.
  unfold mem_string. rewrite existsb_exists. split.
  - intros [y [Hy E]]. apply String.eqb_eq in E. now subst.
  - intros H. exists x. split; [exact H | apply String.eqb_refl].
Qed.

Lemma parentWalk_lookup fuel t q p n :
  lookup p t = Some n ->
  (forall x, In x (paths n) -> (String.length p <= String.length x)%nat) ->
  (String.length q < String.length p)%nat ->
  lookup p (fst (parentWalk fuel t q)) = Some n.
Proof.
  revert t q. induction fuel as [|fuel IH]; intros t q Hl Hlen Hq; simpl; [exact Hl|].
  destruct (lookup q t) as [par|] eqn:Eq; [|exact Hl].
  destruct (lookup_spec _ _ _ Eq) as [Hpar _]. rewrite Hpar.
  destruct (parentWalk fuel _ (parentPathOf q)) as [r v] eqn:E. simpl.
  assert (Hl' : lookup p (update_at q updateDirectorySelectionState t) = Some n).
  { apply lookup_update_other; [apply flags_only_updateDirectorySelectionState | exact Hl |].
    intros Hin. specialize (Hlen q Hin). lia. }
  specialize (IH _ (parentPathOf q) Hl' Hlen).
  rewrite E in IH. apply IH. pose proof (parentPathOf_length_le q). lia.
Qed.

Lemma parentWalk_paths fuel t q : paths (fst (parentWalk fuel t q)) = paths t.
Proof.
  revert t q. induction fuel as [|fuel IH]; intros t q; simpl; [reflexivity|].
  destruct (lookup q t) as [par|]; [|reflexivity].
  destruct (parentWalk fuel _ _) as [r v] eqn:E. simpl.
  specialize (IH (update_at (path par) updateDirectorySelectionState t)
                 (parentPathOf (path par))).
  rewrite E in IH. simpl in IH. rewrite IH.
  apply paths_update_at, flags_only_paths, flags_only_updateDirectorySelectionState.
Qed.

Lemma parentWalk_visited fuel t q :
  snd (parentWalk fuel t q) = parent_chain fuel (fun x => mem_string x (paths t)) q.
Proof.
  revert t q. induction fuel as [|fuel IH]; intros t q; simpl; [reflexivity|].
  destruct (lookup q t) as [par|] eqn:Eq.
  - destruct (lookup_spec _ _ _ Eq) as [Hpar Hin].
    assert (Hm : mem_string q (paths t) = true).
    { apply mem_string_spec. rewrite <- Hpar. unfold paths. now apply in_map. }
    rewrite Hm, Hpar.
    destruct (parentWalk fuel _ _) as [r v] eqn:E. simpl.
    specialize (IH (update_at q updateDirectorySelectionState t) (parentPathOf q)).
    rewrite E in IH. simpl in IH. rewrite IH. f_equal.
    rewrite paths_update_at; [reflexivity|].
    apply flags_only_paths, flags_only_updateDirectorySelectionState.
  - destruct (mem_string q (paths t)) eqn:Hm; [|reflexivity].
    apply mem_string_spec, lookup_complete in Hm as [m Hm]. congruence.
Qed.

Lemma path_setSelectionRecursive s m : path (setSelectionRecursive s m) = path m.
Proof. now destruct m. Qed.

Lemma wf_set_selection a b n : wf_node n -> wf_node (set_selection a b n).
Proof.
  intros Hw. apply wf_node_inv in Hw as (H1 & H2 & H3). destruct n. now constructor.
Qed.

Lemma wf_tree_path_nonempty t m :
  wf_tree t -> In m (nodes t) -> path m <> "".
Proof.
  intros [Hw Hne] Hm. pose proof (wf_path_length _ _ Hw Hm).
  destruct (path t); [congruence|]. destruct (path m); simpl in *; [lia | discriminate].
Qed.

Lemma toggle_at_subtree t p n :
  wf_tree t -> lookup p t = Some n ->
  exists n', lookup p (toggle_at t p) = Some n' /\ paths n' = paths n /\
    isDirectory n' = isDirectory n /\ selected n' = negb (selected n) /\ partiallySelected n' = false /\
    (isDirectory n = true -> forall m, In m (nodes n') ->
       selected m = negb (selected n) /\ partiallySelected m = false).
Proof.
  intros Hwf Hl. pose proof Hwf as [Hw Hne].
  destruct (lookup_spec _ _ _ Hl) as [Hp Hin]. subst p.
  assert (Hwn : wf_node n) by (eapply wf_nodes; eauto).
  assert (Hlen : forall x, In x (paths n) ->
            (String.length (path n) <= String.length x)%nat).
  { intros x Hx. unfold paths in Hx. apply in_map_iff in Hx as [m [<- Hm]].
    eapply wf_path_length; eauto. }
  assert (Hq : (String.length (parentPathOf (path n)) < String.length (path n))%nat).
  { apply parentPathOf_length_lt. eapply wf_tree_path_nonempty; eauto. }
  unfold toggle_at, toggleSelect. rewrite Hl. cbv zeta.
  set (ns := negb (selected n)).
  assert (H1 : lookup (path n) (update_at (path n) (set_selection ns false) t)
               = Some (set_selection ns false n)).
  { rewrite lookup_update_same, Hl; [reflexivity|]. intros m; now destruct m. }
  unfold updateParentSelectionStates, updateParentSelectionStates_trace.
  destruct (isDirectory n) eqn:Hd.
  - exists (setSelectionRecursive ns (set_selection ns false n)).
    split; [|split; [|split; [exact Hd | split; [reflexivity | split; [reflexivity|]]]]].
    + apply parentWalk_lookup; [| |exact Hq].
      * rewrite lookup_update_same, H1; [reflexivity|]. apply path_setSelectionRecursive.
      * rewrite paths_setSelectionRecursive, paths_set_selection. exact Hlen.
    + now rewrite paths_setSelectionRecursive, paths_set_selection.
    + intros _ m Hm. eapply setSelectionRecursive_all; [|exact Hm].
      now apply wf_set_selection.
  - exists (set_selection ns false n).
    split; [|split; [|split; [exact Hd | split; [reflexivity | split; [reflexivity|]]]]].
    + apply parentWalk_lookup; [exact H1 | |exact Hq].
      rewrite paths_set_selection. exact Hlen.
    + apply paths_set_selection.
    + intros H; congruence.
Qed.

Lemma Forall2_compose {A B C} (R1 : A -> B -> Prop) (R2 : B -> C -> Prop)
  (R : A -> C -> Prop) l1 l2 l3 :
  (forall x y z, R1 x y -> R2 y z -> R x z) ->
  Forall2 R1 l1 l2 -> Forall2 R2 l2 l3 -> Forall2 R l1 l3.
Proof.
  intros H H1. revert l3. induction H1 as [|x y l1 l2 Hxy _ IH]; intros l3 H2.
  - inversion H2; constructor.
  - inversion H2 as [|y' z l2' l3' Hyz H2']; subst. constructor; eauto.
Qed.

Lemma Forall2_weaken {A B} (R R' : A -> B -> Prop) l1 l2 :
  (forall x y, R x y -> R' x y) -> Forall2 R l1 l2 -> Forall2 R' l1 l2.
Proof. intros H H1. induction H1; constructor; auto. Qed.

Lemma Forall2_refl {A} (R : A -> A -> Prop) l :
  (forall x, In x l -> R x x) -> Forall2 R l l.
Proof. induction l; constructor; auto with datatypes. Qed.

Lemma Forall2_flat_map {A B} (R : B -> B -> Prop) (g h : A -> list B) (k : A -> A) l :
  (forall x, In x l -> Forall2 R (g x) (h (k x))) ->
  Forall2 R (flat_map g l) (flat_map h (map k l)).
Proof.
  induction l as [|x l IH]; intros H; simpl; [constructor|].
  apply Forall2_app; auto with datatypes.
Qed.

(** Changes of a flags-only rewrite at [q]. *)
Lemma update_at_frame q f t :
  flags_only f ->
  Forall2 (fun m m' => path m' = path m /\ (sel_state m' = sel_state m \/ path m = q))
    (nodes t) (nodes (update_at q f t)).
Proof.
  intros Hf. induction t as [t IH] using node_ind'.
  destruct t as [pn nm d cs e s ps]. simpl update_at.
  destruct (String.eqb pn q) eqn:E.
  - apply String.eqb_eq in E. rewrite (nodes_unfold (f _)).
    destruct (Hf (mkNode pn nm d cs e s ps)) as [H1 H2]. rewrite H2.
    simpl. constructor; [split; [exact H1 | now right]|].
    apply Forall2_refl. auto.
  - simpl. constructor; [auto|].
    apply Forall2_flat_map. intros c Hc. apply IH. exact Hc.
Qed.

Lemma setSelectionRecursive_paths s n :
  Forall2 (fun m m' => path m' = path m) (nodes n) (nodes (setSelectionRecursive s n)).
Proof.
  induction n as [n IH] using node_ind'.
  destruct n as [pn nm d cs e s' ps]. simpl. constructor; [reflexivity|].
  destruct d.
  - apply Forall2_flat_map. exact IH.
  - apply Forall2_refl. auto.
Qed.

(** Changes of the downward stamp at [p]. *)
Lemma update_at_setSelection_frame p s t :
  wf_node t ->
  Forall2 (fun m m' => path m' = path m /\ (sel_state m' = sel_state m \/ is_under p (path m)))
    (nodes t) (nodes (update_at p (setSelectionRecursive s) t)).
Proof.
  induction t as [t IH] using node_ind'. intros Hw.
  destruct (String.eqb (path t) p) eqn:E.
  - apply String.eqb_eq in E.
    replace (update_at p (setSelectionRecursive s) t) with (setSelectionRecursive s t)
      by (destruct t; simpl in *; subst; now rewrite String.eqb_refl).
    pose proof (setSelectionRecursive_paths s t) as H.
    assert (Hu : forall m, In m (nodes t) -> is_under p (path m))
      by (intros m Hm; rewrite <- E; eapply wf_under; eauto).
    clear IH. revert H. generalize (nodes (setSelectionRecursive s t)).
    induction (nodes t) as [|x l IHl]; intros l' H; inversion H; subst; constructor.
    + split; [assumption | right; auto with datatypes].
    + apply IHl; auto with datatypes.
  - pose proof (wf_node_inv _ Hw) as (_ & _ & Hwc).
    destruct t as [pn nm d cs e s' ps]. simpl in *. rewrite E.
    simpl. constructor; [auto|].
    apply Forall2_flat_map. intros c Hc. apply IH; auto.
Qed.

Lemma parentWalk_frame fuel t q :
  Forall2 (fun m m' => path m' = path m /\
             (sel_state m' = sel_state m \/ In (path m) (snd (parentWalk fuel t q))))
    (nodes t) (nodes (fst (parentWalk fuel t q))).
Proof.
  revert t q. induction fuel as [|fuel IH]; intros t q; simpl.
  - apply Forall2_refl. auto.
  - destruct (lookup q t) as [par|]; [|apply Forall2_refl; auto].
    destruct (parentWalk fuel _ _) as [r v] eqn:E. simpl.
    specialize (IH (update_at (path par) updateDirectorySelectionState t)
                   (parentPathOf (path par))).
    rewrite E in IH. simpl in IH.
    eapply Forall2_compose; [|apply update_at_frame, flags_only_updateDirectorySelectionState
                              | exact IH].
    intros x y z [H1 H2] [H3 H4]. split; [congruence|].
    destruct H2 as [H2|H2]; destruct H4 as [H4|H4].
    + left; congruence.
    + right; right. congruence.
    + right; left; congruence.
    + right; left; congruence.
Qed.

Lemma lastIndexOf_from_split s c i acc :
  lastIndexOf_from s c i acc = acc \/
  exists pre post, s = pre ++ String c post /\
                   lastIndexOf_from s c i acc = (i + Z.of_nat (String.length pre))%Z.
Proof.
  revert i acc; induction s as [|a s IH]; intros i acc; [now left|].
  change (lastIndexOf_from (String a s) c i acc)
    with (lastIndexOf_from s c (i + 1) (if Ascii.eqb a c then i else acc)).
  destruct (IH (i + 1)%Z (if Ascii.eqb a c then i else acc)) as [H|[pre [post [Hs H]]]].
  - rewrite H. destruct (Ascii.eqb a c) eqn:E; [|now left].
    apply Ascii.eqb_eq in E. subst. right. exists "", s. simpl. split; [reflexivity | lia].
  - right. exists (String a pre), post. rewrite H, Hs. simpl. split; [reflexivity | lia].
Qed.

Lemma is_under_parentPathOf s :
  parentPathOf s <> "" -> is_under (parentPathOf s) s.
Proof.
  unfold parentPathOf, lastIndexOf, substring0.
  destruct (lastIndexOf_from_split s slash 0 (-1)) as [H|[pre [post [Hs H]]]];
    rewrite H; [simpl; now destruct s|].
  simpl. rewrite Nat2Z.id. rewrite Hs at 1 2. rewrite substring0_length_prefix.
  intros _. right. unfold join. destruct (endsWithSlash pre).
  - exists (String slash post). now rewrite string_app_nil_r.
  - exists post. now rewrite string_app_assoc.
Qed.

Lemma is_under_trans a b c : is_under a b -> is_under b c -> is_under a c.
Proof.
  intros [->|[r1 ->]] Hbc; [exact Hbc|].
  destruct Hbc as [->|[r2 ->]]; right; [now exists r1|].
  destruct (join_empty_ext (join a "" ++ r1)) as [s ->].
  exists (r1 ++ s ++ r2). now rewrite !string_app_assoc.
Qed.

Lemma parent_chain_ancestors fuel present s p :
  (forall x, present x = true -> x <> "") ->
  is_under s p -> (String.length s <= String.length p)%nat ->
  forall x, In x (parent_chain fuel present (parentPathOf s)) ->
  is_under x p /\ (String.length x < String.length p)%nat.
Proof.
  intros Hne. revert s. induction fuel as [|fuel IH]; intros s Hs Hl x Hx; simpl in Hx;
    [destruct Hx|].
  destruct (present (parentPathOf s)) eqn:Hp; [|destruct Hx].
  pose proof (Hne _ Hp) as Hne'.
  assert (Hs0 : s <> "") by (intros ->; apply Hne'; reflexivity).
  pose proof (parentPathOf_length_lt s Hs0).
  assert (Hu : is_under (parentPathOf s) p)
    by (eapply is_under_trans; [apply is_under_parentPathOf; exact Hne' | exact Hs]).
  destruct Hx as [<-|Hx]; [split; [exact Hu | lia]|].
  apply (IH (parentPathOf s)); [exact Hu | lia | exact Hx].
Qed.

(** ** Shape preservation *)


Lemma update_at_path_name q f t :
  (forall m, path (f m) = path m /\ name (f m) = name m) ->
  path (update_at q f t) = path t /\ name (update_at q f t) = name t.
Proof.
  intros Hf. destruct t as [pn nm d cs e s ps]; simpl.
  destruct (String.eqb pn q); [apply Hf | auto].
Qed.

Lemma wf_update_at q f t : keeps_shape f -> wf_node t -> wf_node (update_at q f t).
Proof.
  intros [Hpn Hf]. induction t as [t IH] using node_ind'. intros Hw.
  pose proof (wf_node_inv _ Hw) as (H1 & H2 & H3).
  destruct t as [pn nm d cs e s ps]. simpl update_at.
  destruct (String.eqb pn q); [apply Hf; exact Hw|].
  simpl in *. constructor; simpl.
  - intros Hd. rewrite (H1 Hd). reflexivity.
  - intros c' Hc'. apply in_map_iff in Hc' as [c [<- Hc]].
    destruct (update_at_path_name q f c Hpn) as [-> ->]. auto.
  - intros c' Hc'. apply in_map_iff in Hc' as [c [<- Hc]]. auto.
Qed.

Lemma keeps_shape_set_selection a b : keeps_shape (set_selection a b).
Proof. split; [intros m; now destruct m | apply wf_set_selection]. Qed.

Lemma keeps_shape_updateDirectorySelectionState :
  keeps_shape updateDirectorySelectionState.
Proof.
  split.
  - intros m. unfold updateDirectorySelectionState.
    destruct (_ || _); [auto|].
    destruct (forallb _ _); [|destruct (existsb _ _)]; now destruct m.
  - intros m Hm. unfold updateDirectorySelectionState.
    destruct (_ || _); [auto|].
    destruct (forallb _ _); [|destruct (existsb _ _)]; now apply wf_set_selection.
Qed.

Lemma keeps_shape_setSelectionRecursive s : keeps_shape (setSelectionRecursive s).
Proof.
  split; [intros m; now destruct m|].
  intros m. induction m as [m IH] using node_ind'. intros Hw.
  pose proof (wf_node_inv _ Hw) as (H1 & H2 & H3).
  destruct m as [pn nm d cs e s' ps]. simpl in *. constructor; simpl.
  - intros Hd. subst d. now rewrite H1.
  - intros c' Hc'. destruct d; [|auto].
    apply in_map_iff in Hc' as [c [<- Hc]]. destruct c; simpl. apply (H2 _ Hc).
  - intros c' Hc'. destruct d; [|auto].
    apply in_map_iff in Hc' as [c [<- Hc]]. auto.
Qed.

Lemma wf_parentWalk fuel t q : wf_node t -> wf_node (fst (parentWalk fuel t q)).
Proof.
  revert t q. induction fuel as [|fuel IH]; intros t q Hw; simpl; [exact Hw|].
  destruct (lookup q t) as [par|]; [|exact Hw].
  destruct (parentWalk fuel _ _) as [r v] eqn:E. simpl.
  specialize (IH (update_at (path par) updateDirectorySelectionState t)
                 (parentPathOf (path par))).
  rewrite E in IH. apply IH.
  apply wf_update_at; [apply keeps_shape_updateDirectorySelectionState | exact Hw].
Qed.

Lemma path_parentWalk fuel t q : path (fst (parentWalk fuel t q)) = path t.
Proof.
  revert t q. induction fuel as [|fuel IH]; intros t q; simpl; [reflexivity|].
  destruct (lookup q t) as [par|]; [|reflexivity].
  destruct (parentWalk fuel _ _) as [r v] eqn:E. simpl.
  specialize (IH (update_at (path par) updateDirectorySelectionState t)
                 (parentPathOf (path par))).
  rewrite E in IH. simpl in IH. rewrite IH.
  apply update_at_path_name, keeps_shape_updateDirectorySelectionState.
Qed.

Lemma wf_tree_toggle_at t p : wf_tree t -> wf_tree (toggle_at t p).
Proof.
  intros [Hw Hne]. unfold toggle_at, toggleSelect.
  destruct (lookup p t) as [n|]; [|split; assumption].
  unfold updateParentSelectionStates, updateParentSelectionStates_trace.
  set (ns := negb (selected n)).
  assert (Hw1 : wf_node (update_at (path n) (set_selection ns false) t))
    by (apply wf_update_at; [apply keeps_shape_set_selection | exact Hw]).
  assert (Hp1 : path (update_at (path n) (set_selection ns false) t) = path t)
    by (apply update_at_path_name, keeps_shape_set_selection).
  split.
  - apply wf_parentWalk. destruct (isDirectory n); [|exact Hw1].
    apply wf_update_at; [apply keeps_shape_setSelectionRecursive | exact Hw1].
  - rewrite path_parentWalk. destruct (isDirectory n); [|congruence].
    rewrite (proj1 (update_at_path_name _ _ _ (proj1 (keeps_shape_setSelectionRecursive ns)))).
    congruence.
Qed.

Lemma toggle_at_frame t p :
  wf_tree t ->
  Forall2 (fun m m' => path m' = path m /\
             (sel_state m' = sel_state m \/ is_under p (path m) \/
              (is_under (path m) p /\ path m <> p)))
    (nodes t) (nodes (toggle_at t p)).
Proof.
  intros Hwf. pose proof Hwf as [Hw Hne]. unfold toggle_at, toggleSelect.
  destruct (lookup p t) as [n|] eqn:Hl; [|apply Forall2_refl; auto].
  destruct (lookup_spec _ _ _ Hl) as [Hp _]. subst p.
  unfold updateParentSelectionStates, updateParentSelectionStates_trace.
  set (ns := negb (selected n)).
  set (root1 := update_at (path n) (set_selection ns false) t).
  set (root2 := if isDirectory n
                then update_at (path n) (setSelectionRecursive ns) root1 else root1).
  assert (Hw1 : wf_node root1)
    by (apply wf_update_at; [apply keeps_shape_set_selection | exact Hw]).
  assert (Hpaths : paths root2 = paths t).
  { unfold root2, root1. destruct (isDirectory n);
      rewrite ?paths_update_at; try reflexivity;
      try apply paths_setSelectionRecursive; apply paths_set_selection. }
  assert (F12 : Forall2 (fun m m' => path m' = path m /\
                          (sel_state m' = sel_state m \/ is_under (path n) (path m)))
                        (nodes t) (nodes root2)).
  { assert (F1 : Forall2 (fun m m' => path m' = path m /\
                          (sel_state m' = sel_state m \/ is_under (path n) (path m)))
                        (nodes t) (nodes root1)).
    { eapply Forall2_weaken; [|apply update_at_frame, flags_only_set_selection].
      intros x y [H1 [H2|H2]]; split; auto. right. rewrite H2. apply is_under_refl. }
    unfold root2. destruct (isDirectory n); [|exact F1].
    eapply Forall2_compose; [|exact F1 | apply update_at_setSelection_frame; exact Hw1].
    intros x y z [H1 H2] [H3 H4]. split; [congruence|].
    destruct H2 as [H2|H2]; destruct H4 as [H4|H4]; try (right; congruence).
    left; congruence. }
  eapply Forall2_compose; [|exact F12 | apply parentWalk_frame].
  intros x y z [H1 H2] [H3 H4]. split; [congruence|].
  destruct H4 as [H4|H4].
  - destruct H2 as [H2|H2]; [left; congruence | right; left; exact H2].
  - right; right. rewrite parentWalk_visited, Hpaths in H4.
    assert (Hne' : forall s, mem_string s (paths t) = true -> s <> "").
    { intros s Hs. apply mem_string_spec in Hs. unfold paths in Hs.
      apply in_map_iff in Hs as [m [<- Hm]]. eapply wf_tree_path_nonempty; eauto. }
    destruct (parent_chain_ancestors _ _ (path n) (path n) Hne' (is_under_refl _)
                (le_n _) (path y) H4) as [Hu Hlt].
    + rewrite H1 in Hu, Hlt. split; [exact Hu|]. intros E. rewrite E in Hlt. lia.
Qed.

(** ** The upward walk visits exactly the ancestors *)

Lemma ancestor_paths_unfold p m :
  ancestor_paths p m =
  if String.eqb (path m) p then Some []
  else (fix go (l : list DirectoryNode) : option (list string) :=
          match l with
          | [] => None
          | c :: l' =>
              match ancestor_paths p c with
              | Some a => Some (path m :: a)
              | None => go l'
              end
          end) (children m).
Proof. now destruct m. Qed.

Lemma ancestor_paths_inv p m a :
  ancestor_paths p m = Some a ->
  (path m = p /\ a = []) \/
  (path m <> p /\ exists c a', In c (children m) /\ ancestor_paths p c = Some a' /\
                              a = path m :: a').
Proof.
  rewrite ancestor_paths_unfold. destruct (String.eqb (path m) p) eqn:E.
  - intros [= <-]. left. split; [now apply String.eqb_eq | reflexivity].
  - intros H. right. split; [now apply String.eqb_neq|].
    induction (children m) as [|c cs IH]; [discriminate|].
    destruct (ancestor_paths p c) eqn:Ec.
    + injection H as <-. exists c, l. auto with datatypes.
    + destruct (IH H) as [c' [a' [? ?]]]. exists c', a'. intuition auto with datatypes.
Qed.

Lemma ancestor_paths_spec p m a :
  wf_node m -> ancestor_paths p m = Some a ->
  In p (paths m) /\ (forall x, In x a -> In x (paths m)) /\
  (List.length a + String.length (path m) <= String.length p)%nat.
Proof.
  revert a. induction m as [m IH] using node_ind'. intros a Hw Ha.
  pose proof (wf_node_inv _ Hw) as (_ & Hj & Hwc).
  destruct (ancestor_paths_inv _ _ _ Ha) as [[Hp ->]|[Hp [c [a' [Hc [Ha' ->]]]]]].
  - split; [|split; [intros x [] | simpl; rewrite Hp; lia]].
    unfold paths. rewrite nodes_unfold. simpl. now left.
  - destruct (IH c Hc a' (Hwc c Hc) Ha') as (H1 & H2 & H3).
    destruct (Hj c Hc) as (Hpc & Hn & _).
    pose proof (join_length (path m) (name c) Hn). rewrite <- Hpc in *.
    assert (Hsub : forall x, In x (paths c) -> In x (paths m)).
    { intros x Hx. unfold paths in *. apply in_map_iff in Hx as [y [<- Hy]].
      apply in_map. eapply in_nodes_child; eauto. }
    split; [now apply Hsub|]. split.
    + intros x [<-|Hx]; [|now apply Hsub, H2].
      unfold paths. rewrite nodes_unfold. simpl. now left.
    + simpl. lia.
Qed.

Lemma parent_chain_ancestor_paths m p a fuel present :
  wf_node m -> endsWithSlash (path m) = false ->
  (forall x, In x (paths m) -> present x = true) ->
  ancestor_paths p m = Some a -> (List.length a <= fuel)%nat ->
  parent_chain fuel present (parentPathOf p) =
  (rev a ++ parent_chain (fuel - List.length a) present (parentPathOf (path m)))%list.
Proof.
  revert a. induction m as [m IH] using node_ind'. intros a Hw He Hpres Ha Hf.
  pose proof (wf_node_inv _ Hw) as (_ & Hj & Hwc).
  destruct (ancestor_paths_inv _ _ _ Ha) as [[Hp ->]|[Hp [c [a' [Hc [Ha' ->]]]]]].
  - simpl. rewrite Nat.sub_0_r. now rewrite Hp.
  - destruct (Hj c Hc) as (Hpc & Hn & Hs).
    assert (Hsub : forall x, In x (paths c) -> In x (paths m)).
    { intros x Hx. unfold paths in *. apply in_map_iff in Hx as [y [<- Hy]].
      apply in_map. eapply in_nodes_child; eauto. }
    simpl in Hf.
    rewrite (IH c Hc a' (Hwc c Hc)); [| rewrite Hpc; now apply endsWithSlash_join
                                    | intros x Hx; apply Hpres, Hsub, Hx
                                    | exact Ha' | lia].
    rewrite Hpc, parentPathOf_join by assumption.
    replace (fuel - List.length a')%nat with (S (fuel - S (List.length a'))) by lia.
    simpl. rewrite Hpres by (unfold paths; rewrite nodes_unfold; now left).
    rewrite <- app_assoc. reflexivity.
Qed.

(** C4 (amended).  In a tree whose root path does not end in '/', toggling
    the node with path [p] hands to [updateDirectorySelectionState] every
    directory on the way from its parent up to the root, in that order, and
    never stops early. *)
Lemma toggle_walk_visits_ancestors t p a :
  wf_tree t -> endsWithSlash (path t) = false -> ancestor_paths p t = Some a ->
  toggle_walk_visits t p = rev a.
Proof.
  intros [Hw Hne] He Ha.
  destruct (ancestor_paths_spec _ _ _ Hw Ha) as (Hin & _ & Hlen).
  destruct (lookup_complete _ _ Hin) as [n Hl].
  destruct (lookup_spec _ _ _ Hl) as [Hp _].
  unfold toggle_walk_visits. rewrite Hl. cbv zeta.
  unfold updateParentSelectionStates_trace. rewrite parentWalk_visited.
  set (root2 := if isDirectory n then _ else _).
  assert (Hpaths : paths root2 = paths t).
  { unfold root2. destruct (isDirectory n);
      rewrite ?paths_update_at; try reflexivity;
      try apply paths_setSelectionRecursive; apply paths_set_selection. }
  rewrite Hpaths, Hp.
  rewrite (parent_chain_ancestor_paths t p a); [| exact Hw | exact He
      | intros x Hx; now apply mem_string_spec | exact Ha | lia].
  rewrite <- (app_nil_r (rev a)) at 2. f_equal.
  destruct (S (String.length p) - List.length a)%nat as [|k]; [reflexivity|].
  simpl. destruct (mem_string (parentPathOf (path t)) (paths t)) eqn:E; [|reflexivity].
  exfalso. apply mem_string_spec in E. unfold paths in E.
  apply in_map_iff in E as [m [Em Hm]].
  pose proof (wf_path_length _ _ Hw Hm). pose proof (parentPathOf_length_lt _ Hne).
  rewrite Em in *. lia.
Qed.

Lemma wf_nodeb_sound n : wf_nodeb n = true -> wf_node n.
Proof.
  induction n as [n IH] using node_ind'. intros H. simpl in H.
  destruct n as [p nm d cs e s ps]; simpl in *.
  apply andb_true_iff in H as [H1 H2]. rewrite forallb_forall in H2.
  constructor; simpl.
  - intros ->. destruct cs; [reflexivity | discriminate].
  - intros c Hc. specialize (H2 c Hc).
    apply andb_true_iff in H2 as [H2 _]. apply andb_true_iff in H2 as [H2 H4].
    apply andb_true_iff in H2 as [H2 H3].
    split; [now apply String.eqb_eq|]. split.
    + apply negb_true_iff, String.eqb_neq in H3. exact H3.
    + now apply negb_true_iff in H4.
  - intros c Hc. apply IH; [exact Hc|]. specialize (H2 c Hc).
    now apply andb_true_iff in H2 as [_ H2].
Qed.

Lemma sel_state_flags n :
  sel_state n = if selected n then SFull else if partiallySelected n then SPartial else SNone.
Proof. reflexivity. Qed.

Lemma length_nodes_paths n n' : paths n' = paths n -> List.length (nodes n') = List.length (nodes n).
Proof. unfold paths. intros H. rewrite <- (length_map path (nodes n')), H. apply length_map. Qed.

(** C1 (code bug).  The tri-state invariant does not survive a toggle under
    the root directory "/": for the entry "/a" the parent path computed by
    [substring(0, lastIndexOf('/'))] is the empty string, which is not a key of
    [nodeMap], so the walk stops at once and the root keeps the state None
    while one of its two children is Full. *)
Theorem toggle_slash_root_breaks_invariant :
  tri_state_invariant slash_root_tree = true /\
  tri_state_invariant (toggle_at slash_root_tree "/a") = false /\
  toggle_walk_visits slash_root_tree "/a" = [].
Proof. vm_compute. repeat split. Qed.

(** C2.  Toggling the node with path [p] computes [next] as None when the
    node is Full and as Full otherwise (a Partial node becomes Full); the node
    itself gets [next] and, when it is a directory, so does every node of its
    subtree, whose set of paths is unchanged. *)
Theorem toggle_sets_next_state t p n :
  wf_tree t -> lookup p t = Some n ->
  let next := if SelState_eqb (sel_state n) SFull then SNone else SFull in
  exists n', lookup p (toggle_at t p) = Some n' /\ paths n' = paths n /\
    sel_state n' = next /\
    (isDirectory n = true -> forall m, In m (nodes n') -> sel_state m = next).
Proof.
  intros Hw Hl next.
  destruct (toggle_at_subtree t p n Hw Hl) as (n' & H1 & H2 & H3 & H4 & H5 & H6).
  assert (Hnext : next = if negb (selected n) then SFull else SNone).
  { unfold next, sel_state. destruct (selected n); [reflexivity|].
    destruct (partiallySelected n); reflexivity. }
  exists n'. split; [exact H1|]. split; [exact H2|]. split.
  - rewrite Hnext. unfold sel_state. rewrite H4, H5. reflexivity.
  - intros Hd m Hm. destruct (H6 Hd m Hm) as [E1 E2].
    rewrite Hnext. unfold sel_state. rewrite E1, E2. reflexivity.
Qed.

Lemma toggle_sets_next_state_witness :
  wf_tree sample_tree /\ lookup "/home/u/proj/A" sample_tree = Some (dir_node "/home/u/proj/A" "A"
       [file_node "/home/u/proj/A/x" "x" false; file_node "/home/u/proj/A/y" "y" false]
       false false) /\
  exists n', lookup "/home/u/proj/A" (toggle_at sample_tree "/home/u/proj/A") = Some n' /\
    paths n' = paths (dir_node "/home/u/proj/A" "A"
       [file_node "/home/u/proj/A/x" "x" false; file_node "/home/u/proj/A/y" "y" false]
       false false) /\ sel_state n' = SFull /\
    (true = true -> forall m, In m (nodes n') -> sel_state m = SFull).
Proof.
  assert (Hw : wf_tree sample_tree)
    by (split; [apply wf_nodeb_sound; vm_compute; reflexivity | discriminate]).
  split; [exact Hw|]. split; [vm_compute; reflexivity|].
  exact (toggle_sets_next_state sample_tree "/home/u/proj/A" _ Hw eq_refl).
Defined.

(** C3, counterexample.  In "/r" > "/r/d" > "/r/d/f", all None, toggling
    the directory "/r/d" (one descendant) leaves three nodes Full, not two:
    the upward walk also makes the root "/r" Full. *)
Lemma toggle_dir_sets_more_than_subtree :
  count_full chain_tree = 0%nat /\
  (exists n, lookup "/r/d" chain_tree = Some n /\ List.length (nodes n) = 2%nat /\
             sel_state n = SNone) /\
  count_full (toggle_at chain_tree "/r/d") = 3%nat /\
  sel_state (toggle_at chain_tree "/r/d") = SFull.
Proof.
  split; [vm_compute; reflexivity|]. split.
  - eexists. split; [vm_compute; reflexivity | split; vm_compute; reflexivity].
  - split; vm_compute; reflexivity.
Qed.

(** C4, counterexample.  In "/r" > "/r/d" > {f1 Full, f2, f3}, toggling f2
    leaves "/r/d" Partial, as it was, yet the walk goes on to "/r". *)
Lemma walk_continues_past_stable_parent :
  (exists d, lookup "/r/d" stable_parent_tree = Some d /\ sel_state d = SPartial) /\
  (exists d', lookup "/r/d" (toggle_at stable_parent_tree "/r/d/f2") = Some d' /\
              sel_state d' = SPartial) /\
  toggle_walk_visits stable_parent_tree "/r/d/f2" = ["/r/d"; "/r"].
Proof.
  split; [|split].
  - eexists. split; [vm_compute; reflexivity | reflexivity].
  - eexists. split; [vm_compute; reflexivity | reflexivity].
  - vm_compute. reflexivity.
Qed.

Lemma walk_visits_witness :
  toggle_walk_visits stable_parent_tree "/r/d/f2" = rev ["/r"; "/r/d"].
Proof.
  apply toggle_walk_visits_ancestors.
  - split; [apply wf_nodeb_sound; vm_compute; reflexivity | discriminate].
  - vm_compute; reflexivity.
  - vm_compute; reflexivity.
Defined.

Lemma map_filter_flat_map (cs : list DirectoryNode) :
  map path (filter selected (flat_map nodes cs)) =
  flat_map (fun c => map path (filter selected (nodes c))) cs.
Proof.
  induction cs as [|c cs IH]; [reflexivity|].
  simpl flat_map. rewrite filter_app, map_app, IH. reflexivity.
Qed.

Lemma flat_map_ext_In {A B} (f g : A -> list B) l :
  (forall x, In x l -> f x = g x) -> flat_map f l = flat_map g l.
Proof.
  induction l as [|x l IH]; intros H; [reflexivity|].
  simpl. rewrite (H x (or_introl eq_refl)), IH; [reflexivity|].
  intros y Hy. apply H. now right.
Qed.

Lemma collectSelectedPaths_preorder n :
  wf_node n -> collectSelectedPaths n = map path (filter selected (nodes n)).
Proof.
  induction n as [n IH] using node_ind'. intros Hw.
  pose proof (wf_node_inv _ Hw) as (Hf & _ & Hwc).
  rewrite nodes_unfold. simpl filter.
  assert (Hrest : (if isDirectory n then flat_map collectSelectedPaths (children n) else []) =
                  map path (filter selected (flat_map nodes (children n)))).
  { rewrite map_filter_flat_map. destruct (isDirectory n) eqn:Ed.
    - apply flat_map_ext_In. intros c Hc. now apply IH, Hwc.
    - now rewrite (Hf eq_refl). }
  destruct n as [p nm d cs e s ps]. simpl in *. rewrite Hrest.
  destruct s; reflexivity.
Qed.

(** C5, counterexample.  With the single file "/r/a" selected, the saved
    text is "/r/a": it does not end in a newline. *)
Lemma saveSelection_no_trailing_newline :
  saveSelection_text (Some one_file_selected_tree) = "/r/a" /\
  String.get (String.length "/r/a" - 1) "/r/a" = Some "a"%char.
Proof. split; reflexivity. Qed.

(** C5 (amended).  The saved text is the paths of the Full nodes in pre-order,
    joined with a newline, with no newline after the last one (the empty text
    for an empty selection). *)
Theorem saveSelection_text_preorder t :
  wf_node t ->
  saveSelection_text (Some t) = js_join newline (map path (filter selected (nodes t))).
Proof. intros Hw. unfold saveSelection_text, getSelectedPaths. now rewrite collectSelectedPaths_preorder. Qed.

Lemma saveSelection_text_preorder_witness :
  saveSelection_text (Some mixed_selection_tree) =
  js_join newline (map path (filter selected (nodes mixed_selection_tree))) /\
  map path (filter selected (nodes mixed_selection_tree)) =
  ["/home/u/proj/A/x"; "/home/u/proj/B"; "/home/u/proj/B/w"; "/home/u/proj/z"] /\
  saveSelection_text (Some mixed_selection_tree) =
  "/home/u/proj/A/x" ++ newline ++ "/home/u/proj/B" ++ newline ++
  "/home/u/proj/B/w" ++ newline ++ "/home/u/proj/z".
Proof.
  split; [apply saveSelection_text_preorder; apply wf_nodeb_sound; vm_compute; reflexivity|].
  split; vm_compute; reflexivity.
Defined.

(** ** Sorting lemmas *)

Lemma lex_compare_antisym a b : lex_compare b a = CompOpp (lex_compare a b).
Proof.
  revert b. induction a as [|x a IH]; intros [|y b]; try reflexivity.
  simpl. rewrite (Nat.compare_antisym x y).
  destruct (Nat.compare x y); simpl; auto.
Qed.

Lemma lex_compare_eq a b : lex_compare a b = Eq -> a = b.
Proof.
  revert b. induction a as [|x a IH]; intros [|y b]; simpl; try discriminate; auto.
  destruct (Nat.compare x y) eqn:E; try discriminate.
  apply Nat.compare_eq in E as ->. intros H. now rewrite (IH b H).
Qed.

Lemma lex_compare_lt_trans a b c :
  lex_compare a b = Lt -> lex_compare b c = Lt -> lex_compare a c = Lt.
Proof.
  revert b c. induction a as [|x a IH]; intros [|y b] [|z c]; simpl; try discriminate; auto.
  destruct (Nat.compare x y) eqn:E1, (Nat.compare y z) eqn:E2; try discriminate;
    intros H1 H2;
    repeat match goal with
    | H : Nat.compare _ _ = Eq |- _ => apply Nat.compare_eq in H; subst
    | H : Nat.compare _ _ = Lt |- _ => apply Nat.compare_lt_iff in H
    end.
  - rewrite Nat.compare_refl. eauto.
  - now rewrite (proj2 (Nat.compare_lt_iff _ _) E2).
  - now rewrite (proj2 (Nat.compare_lt_iff _ _) E1).
  - now rewrite (proj2 (Nat.compare_lt_iff x z)) by lia.
Qed.

Lemma localeCompare_root_antisym a b :
  localeCompare_root b a = CompOpp (localeCompare_root a b).
Proof.
  unfold localeCompare_root. rewrite (lex_compare_antisym (map fst (collation_elements a))).
  destruct (lex_compare (map fst (collation_elements a)) _); simpl; auto.
  apply lex_compare_antisym.
Qed.

Lemma lex_compare_refl a : lex_compare a a = Eq.
Proof. induction a as [|x a IH]; simpl; [reflexivity|]. now rewrite Nat.compare_refl. Qed.

Lemma lex_compare_le_trans a b c :
  lex_compare a b <> Gt -> lex_compare b c <> Gt -> lex_compare a c <> Gt.
Proof.
  destruct (lex_compare a b) eqn:E1; intros H1; [ | | now contradiction H1];
  destruct (lex_compare b c) eqn:E2; intros H2; try (now contradiction H2).
  - apply lex_compare_eq in E1, E2. subst. now rewrite lex_compare_refl.
  - apply lex_compare_eq in E1. now subst; rewrite E2.
  - apply lex_compare_eq in E2. now subst; rewrite E1.
  - now rewrite (lex_compare_lt_trans _ _ _ E1 E2).
Qed.

Lemma localeCompare_root_le_trans a b c :
  localeCompare_root a b <> Gt -> localeCompare_root b c <> Gt -> localeCompare_root a c <> Gt.
Proof.
  unfold localeCompare_root.
  destruct (lex_compare (map fst (collation_elements a))
                        (map fst (collation_elements b))) eqn:E1;
  intros H1; [| | now contradiction H1];
  destruct (lex_compare (map fst (collation_elements b))
                        (map fst (collation_elements c))) eqn:E2;
  intros H2; try (now contradiction H2).
  - apply lex_compare_eq in E1, E2. rewrite E1, E2, lex_compare_refl.
    now apply (lex_compare_le_trans _ _ _ H1 H2).
  - apply lex_compare_eq in E1. now rewrite E1, E2.
  - apply lex_compare_eq in E2. rewrite <- E2. now rewrite E1.
  - now rewrite (lex_compare_lt_trans _ _ _ E1 E2).
Qed.

Section InsertionSort.
Variable A : Type.
Variable cmp : A -> A -> comparison.
Hypothesis cmp_total : forall a b, cmp a b = Gt -> cmp b a <> Gt.
Hypothesis cmp_trans : forall a b c, cmp a b <> Gt -> cmp b c <> Gt -> cmp a c <> Gt.

Lemma insert_by_In x l y : In y (insert_by cmp x l) <-> y = x \/ In y l.
Proof.
  induction l as [|z l IH]; simpl; [intuition congruence|].
  destruct (cmp x z); simpl; rewrite ?IH; intuition congruence.
Qed.

Lemma insert_by_sorted x l : StronglySorted (fun a b => cmp a b <> Gt) l -> StronglySorted (fun a b => cmp a b <> Gt) (insert_by cmp x l).
Proof.
  induction 1 as [|z l Hs IH Hf]; simpl.
  - repeat constructor.
  - destruct (cmp x z) eqn:E.
    + constructor; [constructor; assumption|]. constructor; [now rewrite E|].
      eapply Forall_impl; [|exact Hf]. intros w. apply cmp_trans. now rewrite E.
    + constructor; [constructor; assumption|]. constructor; [now rewrite E|].
      eapply Forall_impl; [|exact Hf]. intros w. apply cmp_trans. now rewrite E.
    + constructor; [exact IH|]. apply Forall_forall. intros w Hw.
      apply insert_by_In in Hw as [->|Hw].
      * now apply cmp_total.
      * now apply (proj1 (Forall_forall _ _) Hf).
Qed.

Lemma sort_by_sorted l : StronglySorted (fun a b => cmp a b <> Gt) (sort_by cmp l).
Proof. induction l; simpl; [constructor | now apply insert_by_sorted]. Qed.

End InsertionSort.

Lemma StronglySorted_filter {A} (R : A -> A -> Prop) (f : A -> bool) l :
  StronglySorted R l -> StronglySorted R (filter f l).
Proof.
  induction 1 as [|x l Hs IH Hf]; simpl; [constructor|].
  destruct (f x); [|exact IH]. constructor; [exact IH|].
  apply Forall_forall. intros y Hy. apply filter_In in Hy as [Hy _].
  now apply (proj1 (Forall_forall _ _) Hf).
Qed.

Lemma StronglySorted_map {A B} (R : A -> A -> Prop) (S : B -> B -> Prop) (f : A -> B) l :
  (forall x y, R x y -> S (f x) (f y)) ->
  StronglySorted R l -> StronglySorted S (map f l).
Proof.
  intros HRS. induction 1 as [|x l Hs IH Hf]; simpl; constructor; [exact IH|].
  apply Forall_forall. intros y Hy. apply in_map_iff in Hy as [z [<- Hz]].
  apply HRS. now apply (proj1 (Forall_forall _ _) Hf).
Qed.

Lemma StronglySorted_weaken_In {A} (R S : A -> A -> Prop) l :
  (forall x y, In x l -> In y l -> R x y -> S x y) ->
  StronglySorted R l -> StronglySorted S l.
Proof.
  intros H Hs. induction Hs as [|x l Hs IH Hf]; constructor.
  - apply IH. intros a b Ha Hb. apply H; now right.
  - apply Forall_forall. intros y Hy. apply H; [now left | now right |].
    now apply (proj1 (Forall_forall _ _) Hf).
Qed.

Lemma node_le_split lc l :
  StronglySorted (node_le lc) l ->
  l = (filter isDirectory l ++ filter (fun c => negb (isDirectory c)) l)%list.
Proof.
  induction 1 as [|x l Hs IH Hf]; [reflexivity|]. simpl.
  destruct (isDirectory x) eqn:Ex; simpl.
  - now rewrite IH at 1.
  - assert (Hall : forall y, In y l -> isDirectory y = false).
    { intros y Hy. destruct (proj1 (Forall_forall _ _) Hf y Hy) as [[H|H] _];
        [congruence | exact H]. }
    assert (H1 : filter isDirectory l = []).
    { clear -Hall. induction l as [|y l IHl]; [reflexivity|]. simpl.
      rewrite Hall by (left; reflexivity). apply IHl. intros z Hz. apply Hall. now right. }
    assert (H2 : filter (fun c => negb (isDirectory c)) l = l).
    { clear -Hall. induction l as [|y l IHl]; [reflexivity|]. simpl.
      rewrite Hall by (left; reflexivity). simpl. f_equal. apply IHl.
      intros z Hz. apply Hall. now right. }
    now rewrite H1, H2.
Qed.

Lemma scanDirectory_children_fresh lc ign p nm es c :
  In c (scanDirectory_children lc ign p nm es) -> children c = [].
Proof.
  unfold scanDirectory_children. destruct es as [es|]; [|intros []].
  destruct (existsb (String.eqb nm) ign); [intros []|].
  intros Hc. apply in_map_iff in Hc as [e [<- _]]. reflexivity.
Qed.

Lemma scanDirectory_fields lc fuel fs ign node :
  let r := scanDirectory lc fuel fs ign node in
  path r = path node /\ name r = name node /\ isDirectory r = isDirectory node /\
  expanded r = expanded node /\ selected r = selected node /\
  partiallySelected r = partiallySelected node.
Proof. destruct fuel; simpl; repeat split. Qed.

Lemma scanDirectory_S_children lc fuel fs ign node :
  children (scanDirectory lc (S fuel) fs ign node) =
  (children node ++
   map (fun c => if isDirectory c then scanDirectory lc fuel fs ign c else c)
       (scanDirectory_children lc ign (path node) (name node) (fs (path node))))%list.
Proof. reflexivity. Qed.

(** The properties of the children order, for a comparison that is a total
    preorder. *)
Section CollationOrder.
Variable localeCompare : string -> string -> comparison.
Hypothesis lc_antisym : forall a b, localeCompare b a = CompOpp (localeCompare a b).
Hypothesis lc_le_trans : forall a b c,
  localeCompare a b <> Gt -> localeCompare b c <> Gt -> localeCompare a c <> Gt.

Lemma scan_le_total a b : scan_compare localeCompare a b = Gt -> scan_le localeCompare b a.
Proof.
  unfold scan_le, scan_compare.
  rewrite (lc_antisym (se_name a) (se_name b)).
  destruct (se_isDirectory a), (se_isDirectory b); simpl; try discriminate;
    intros ->; discriminate.
Qed.

Lemma scan_le_trans a b c :
  scan_le localeCompare a b -> scan_le localeCompare b c -> scan_le localeCompare a c.
Proof.
  unfold scan_le, scan_compare.
  destruct (se_isDirectory a), (se_isDirectory b), (se_isDirectory c); simpl;
    intros H1 H2; try discriminate; try (now contradiction H1);
    try (now contradiction H2); eauto.
Qed.

Lemma scan_le_node_le a b :
  scan_le localeCompare a b ->
  node_le localeCompare (mkNode (se_path a) (se_name a) (se_isDirectory a) [] false false false)
                        (mkNode (se_path b) (se_name b) (se_isDirectory b) [] false false false).
Proof.
  unfold scan_le, scan_compare, node_le. simpl.
  destruct (se_isDirectory a), (se_isDirectory b); simpl; intuition congruence.
Qed.

Lemma scanDirectory_children_sorted ign p nm es :
  StronglySorted (node_le localeCompare) (scanDirectory_children localeCompare ign p nm es).
Proof.
  unfold scanDirectory_children. destruct es as [es|]; [|constructor].
  destruct (existsb (String.eqb nm) ign); [constructor|].
  apply (StronglySorted_map (scan_le localeCompare)); [exact scan_le_node_le|].
  apply StronglySorted_filter.
  apply (sort_by_sorted _ (scan_compare localeCompare) scan_le_total scan_le_trans).
Qed.

(** Every node of a tree that [scanDirectory] built from a node without
    children has its children in the order. *)
Lemma scanDirectory_sorted fuel fs ign node :
  children node = [] ->
  forall m, In m (nodes (scanDirectory localeCompare fuel fs ign node)) ->
  StronglySorted (node_le localeCompare) (children m).
Proof.
  revert node. induction fuel as [|fuel IH]; intros node Hc m Hm.
  - destruct node as [p nm d cs e s ps]. simpl in Hc, Hm. subst cs.
    destruct Hm as [<-|[]]. simpl. constructor.
  - rewrite nodes_unfold, scanDirectory_S_children, Hc, app_nil_l in Hm.
    destruct Hm as [<-|Hm].
    + rewrite scanDirectory_S_children, Hc, app_nil_l.
      apply (StronglySorted_map (node_le localeCompare)).
      * intros x y. unfold node_le.
        destruct (isDirectory x) eqn:Ex, (isDirectory y) eqn:Ey;
          rewrite ?(proj1 (proj2 (proj2 (scanDirectory_fields localeCompare fuel fs ign x))));
          rewrite ?(proj1 (proj2 (proj2 (scanDirectory_fields localeCompare fuel fs ign y))));
          rewrite ?(proj1 (proj2 (scanDirectory_fields localeCompare fuel fs ign x)));
          rewrite ?(proj1 (proj2 (scanDirectory_fields localeCompare fuel fs ign y)));
          rewrite ?Ex, ?Ey; tauto.
      * apply scanDirectory_children_sorted.
    + apply in_flat_map in Hm as [c' [Hc' Hm]].
      apply in_map_iff in Hc' as [c [<- Hin]].
      pose proof (scanDirectory_children_fresh _ _ _ _ _ _ Hin) as Hcc.
      destruct (isDirectory c).
      * exact (IH c Hcc m Hm).
      * destruct c as [p nm d cs e s ps]. simpl in Hcc, Hm. subst cs.
        destruct Hm as [<-|[]]. simpl. constructor.
Qed.

(** [loadLargeDirectoryContents] on a node without children. *)
Lemma loadLargeDirectoryContents_sorted es node :
  children node = [] ->
  StronglySorted (node_le localeCompare)
                 (children (loadLargeDirectoryContents localeCompare (Some es) node)).
Proof.
  intros Hc. simpl. rewrite Hc. simpl.
  apply (StronglySorted_map (scan_le localeCompare)); [exact scan_le_node_le|].
  apply (sort_by_sorted _ (scan_compare localeCompare) scan_le_total scan_le_trans).
Qed.

Lemma tree_compare_total {S : Type} (a b : @DirectoryTreeNode S) :
  tree_compare localeCompare a b = Gt -> tree_compare localeCompare b a <> Gt.
Proof.
  unfold tree_compare. rewrite (lc_antisym (t_name a) (t_name b)).
  destruct (t_isDirectory a), (t_isDirectory b); simpl; try discriminate;
    intros ->; discriminate.
Qed.

Lemma tree_compare_trans {S : Type} (a b c : @DirectoryTreeNode S) :
  tree_compare localeCompare a b <> Gt -> tree_compare localeCompare b c <> Gt ->
  tree_compare localeCompare a c <> Gt.
Proof.
  unfold tree_compare.
  destruct (t_isDirectory a), (t_isDirectory b), (t_isDirectory c); simpl;
    intros H1 H2; try discriminate; try (now contradiction H1);
    try (now contradiction H2); eauto.
Qed.

Lemma tree_compare_le {S : Type} (a b : @DirectoryTreeNode S) :
  tree_compare localeCompare a b <> Gt -> tree_le localeCompare a b.
Proof.
  unfold tree_compare, tree_le.
  destruct (t_isDirectory a), (t_isDirectory b); simpl; intuition congruence.
Qed.

Lemma loadChildrenForNode_sorted {S : Type} (none : S) readdirSync
  (n : @DirectoryTreeNode S) entries :
  readdirSync (t_path n) = Some entries ->
  StronglySorted (tree_le localeCompare)
                 (t_children (loadChildrenForNode none localeCompare readdirSync n)).
Proof.
  intros Hrd. unfold loadChildrenForNode. rewrite Hrd. destruct n as [p nm d cs e s l]. simpl.
  apply (StronglySorted_weaken_In (fun a b => tree_compare localeCompare a b <> Gt));
    [intros x y _ _; apply tree_compare_le|].
  apply sort_by_sorted; [apply tree_compare_total | apply tree_compare_trans].
Qed.

End CollationOrder.

(** C6, counterexample.  The entries B.txt and a.txt are loaded as a.txt,
    B.txt under the root collation, whereas case-sensitive code-unit order
    puts B.txt first. *)
Lemma scan_order_not_code_unit_order :
  map name (scanDirectory_children localeCompare_root [] "/r" "r"
              (Some [mkDirEntry "B.txt" (Some false); mkDirEntry "a.txt" (Some false)]))
  = ["a.txt"; "B.txt"] /\
  String.compare "B.txt" "a.txt" = Lt.
Proof. split; vm_compute; reflexivity. Qed.

(** C6 (amended).  For a [localeCompare] that is a total preorder, as the
    host collation is: in every tree [scanDirectory] builds (recursively) from
    a node without children, in the children [loadLargeDirectoryContents]
    gives a node without children, and in the children of every node
    [DirectoryTree.loadChildrenForNode] has loaded, every directory comes
    before every file and within a kind the names ascend in [localeCompare]
    order.  Under the root collation the order is case-blind first, lower
    case first on a tie, not code-unit order: {b.txt, A/, a.txt} loads as A/,
    a.txt, b.txt. *)
Theorem loaded_children_order (localeCompare : string -> string -> comparison)
  (lc_antisym : forall a b, localeCompare b a = CompOpp (localeCompare a b))
  (lc_le_trans : forall a b c,
     localeCompare a b <> Gt -> localeCompare b c <> Gt -> localeCompare a c <> Gt) :
  (forall fuel fs ign node, children node = [] ->
     forall m, In m (nodes (scanDirectory localeCompare fuel fs ign node)) ->
     StronglySorted (node_le localeCompare) (children m)) /\
  (forall es node, children node = [] ->
     StronglySorted (node_le localeCompare)
                    (children (loadLargeDirectoryContents localeCompare (Some es) node))) /\
  (forall (S : Type) (none : S) readdirSync (n : @DirectoryTreeNode S) entries,
     readdirSync (t_path n) = Some entries ->
     StronglySorted (tree_le localeCompare)
                    (t_children (loadChildrenForNode none localeCompare readdirSync n))) /\
  map name (scanDirectory_children localeCompare_root [] "/r" "r"
              (Some [mkDirEntry "b.txt" (Some false); mkDirEntry "A" (Some true);
                     mkDirEntry "a.txt" (Some false)])) = ["A"; "a.txt"; "b.txt"].
Proof.
  split; [|split; [|split]].
  - exact (scanDirectory_sorted localeCompare lc_antisym lc_le_trans).
  - exact (loadLargeDirectoryContents_sorted localeCompare lc_antisym lc_le_trans).
  - intros S none rd n entries.
    exact (loadChildrenForNode_sorted localeCompare lc_antisym lc_le_trans none rd n entries).
  - vm_compute. reflexivity.
Qed.

Lemma loaded_children_order_witness :
  let fs := fun p =>
    if String.eqb p "/r" then
      Some [mkDirEntry "b.txt" (Some false); mkDirEntry "A" (Some true);
            mkDirEntry "a.txt" (Some false)]
    else if String.eqb p "/r/A" then
      Some [mkDirEntry "Z" (Some false); mkDirEntry "y" (Some false)]
    else None in
  let r := scanDirectory localeCompare_root 3 fs [] (mkNode "/r" "r" true [] false false false) in
  let rd := fun p => if String.eqb p "." then Some [("b", false); ("_c", true); ("a", true)]
                     else None in
  let t := loadChildrenForNode tt localeCompare_root rd (mkTreeNode "." "." true [] false tt false) in
  map name (children r) = ["A"; "a.txt"; "b.txt"] /\
  map (fun c => map name (children c)) (children r) = [["y"; "Z"]; []; []] /\
  Forall (fun m => StronglySorted (node_le localeCompare_root) (children m)) (nodes r) /\
  map t_path (t_children t) = ["_c"; "a"; "b"] /\
  StronglySorted (tree_le localeCompare_root) (t_children t).
Proof.
  intros fs r rd t.
  pose proof (loaded_children_order localeCompare_root localeCompare_root_antisym
                localeCompare_root_le_trans) as [Hscan [_ [Htree _]]].
  split; [vm_compute; reflexivity|]. split; [vm_compute; reflexivity|].
  split; [apply Forall_forall; intros m Hm; exact (Hscan 3 fs [] (mkNode "/r" "r" true [] false false false) eq_refl m Hm)|].
  split; [vm_compute; reflexivity|].
  exact (Htree unit tt rd (mkTreeNode "." "." true [] false tt false) _ eq_refl).
Defined.

Lemma visible_loop_prefix fuel ign st acc :
  exists l, visible_loop fuel ign st acc = (acc ++ l)%list.
Proof.
  revert st acc. induction fuel as [|fuel IH]; intros st acc; simpl.
  - exists []. now rewrite app_nil_r.
  - destruct st as [|node st']; [exists []; now rewrite app_nil_r|].
    destruct (isDirectory node && expanded node);
      [destruct (existsb (String.eqb (name node)) ign && (List.length (children node) =? 0)%nat)|].
    + destruct (IH st' ((acc ++ [node]) ++ [placeholder node])%list) as [l ->].
      exists (node :: placeholder node :: l). now rewrite <- !app_assoc.
    + destruct (IH (children node ++ st')%list (acc ++ [node])%list) as [l ->].
      exists (node :: l). now rewrite <- app_assoc.
    + destruct (IH st' (acc ++ [node])%list) as [l ->].
      exists (node :: l). now rewrite <- app_assoc.
Qed.

Lemma visible_loop_root fuel ign r :
  exists l, visible_loop (S fuel) ign [r] [] = r :: l.
Proof.
  simpl. destruct (isDirectory r && expanded r);
    [destruct (existsb (String.eqb (name r)) ign && (List.length (children r) =? 0)%nat)|];
    match goal with
    | |- exists _, visible_loop ?f ?i ?s ?a = _ =>
        destruct (visible_loop_prefix f i s a) as [l ->]
    end; eexists; reflexivity.
Qed.

Lemma findIndex_path_cases p l :
  (findIndex_path p l = -1 /\ forall m, In m l -> path m <> p)%Z \/
  (0 <= findIndex_path p l < Z.of_nat (List.length l) /\
   option_map path (nth_error l (Z.to_nat (findIndex_path p l))) = Some p /\
   forall j, (j < Z.to_nat (findIndex_path p l))%nat -> option_map path (nth_error l j) <> Some p)%Z.
Proof.
  induction l as [|x l IH]; simpl.
  - left. split; [reflexivity | intros m []].
  - destruct (String.eqb (path x) p) eqn:E.
    + right. apply String.eqb_eq in E. split; [lia|]. split; [simpl; now rewrite E|].
      intros j Hj. lia.
    + apply String.eqb_neq in E.
      destruct IH as [[-> Hn]|[Hr [Hp Hb]]].
      * left. split; [reflexivity|]. intros m [<-|Hm]; [exact E | now apply Hn].
      * right. destruct (Z.eqb_spec (findIndex_path p l) (-1)); [lia|].
        split; [lia|]. replace (Z.to_nat (findIndex_path p l + 1))
                         with (S (Z.to_nat (findIndex_path p l))) by lia.
        split; [exact Hp|]. intros [|j] Hj; simpl.
        -- intros [= H]. exact (E H).
        -- apply Hb. lia.
Qed.

(** C7.  Rebuilding the visible list with the cursor [c] on a node of
    path [p]: if [p] is in the new list the cursor goes to its (first) index,
    otherwise to [min(c, newLength - 1)]; the new cursor is never negative. *)
Theorem updateVisibleNodes_cursor ign r vis c n :
  (0 <= c < Z.of_nat (List.length vis))%Z ->
  nth_error vis (Z.to_nat c) = Some n -> path n <> "" ->
  exists r' vis' c',
    updateVisibleNodes ign (Some r) vis c = Some (r', vis', c') /\
    (0 <= c')%Z /\
    ((exists m, In m vis' /\ path m = path n) ->
       (c' < Z.of_nat (List.length vis'))%Z /\
       option_map path (nth_error vis' (Z.to_nat c')) = Some (path n) /\
       (forall j, (j < Z.to_nat c')%nat -> option_map path (nth_error vis' j) <> Some (path n))) /\
    ((~ exists m, In m vis' /\ path m = path n) ->
       c' = Z.min c (Z.of_nat (List.length vis') - 1)).
Proof.
  intros Hc Hn Hne. unfold updateVisibleNodes.
  replace ((0 <? Z.of_nat (List.length vis))%Z && (c <? Z.of_nat (List.length vis))%Z)
    with true by (symmetry; apply andb_true_iff; split; apply Z.ltb_lt; lia).
  replace (c <? 0)%Z with false by (symmetry; apply Z.ltb_ge; lia).
  rewrite Hn. simpl option_map.
  destruct (visible_loop_root (List.length (nodes (set_expanded r))) ign (set_expanded r))
    as [l Hl].
  rewrite Hl. set (vis' := set_expanded r :: l).
  replace (String.eqb (path n) "") with false by (symmetry; now apply String.eqb_neq).
  assert (Hlen : (1 <= Z.of_nat (List.length vis'))%Z) by (simpl; lia).
  destruct (findIndex_path_cases (path n) vis') as [[Hf Hnone]|[Hr [Hp Hb]]].
  - rewrite Hf. simpl negb. cbv iota.
    replace ((Z.min c (Z.of_nat (List.length vis') - 1) <? 0)%Z ||
             (Z.of_nat (List.length vis') =? 0)%Z) with false
      by (symmetry; apply orb_false_iff; split; [apply Z.ltb_ge | apply Z.eqb_neq]; lia).
    replace (Z.of_nat (List.length vis') <=? Z.min c (Z.of_nat (List.length vis') - 1))%Z
      with false by (symmetry; apply Z.leb_gt; lia).
    do 3 eexists. split; [reflexivity|]. split; [lia|]. split.
    + intros [m [Hm Hpm]]. exfalso. exact (Hnone m Hm Hpm).
    + intros _. reflexivity.
  - replace (negb (findIndex_path (path n) vis' =? -1)%Z) with true
      by (symmetry; apply negb_true_iff, Z.eqb_neq; lia).
    replace ((findIndex_path (path n) vis' <? 0)%Z || (Z.of_nat (List.length vis') =? 0)%Z)
      with false
      by (symmetry; apply orb_false_iff; split; [apply Z.ltb_ge | apply Z.eqb_neq]; lia).
    replace (Z.of_nat (List.length vis') <=? findIndex_path (path n) vis')%Z
      with false by (symmetry; apply Z.leb_gt; lia).
    do 3 eexists. split; [reflexivity|]. split; [lia|]. split.
    + intros _. split; [lia|]. split; [exact Hp | exact Hb].
    + intros Hnot. exfalso. apply Hnot.
      destruct (nth_error vis' (Z.to_nat (findIndex_path (path n) vis'))) as [m|] eqn:Em;
        [|discriminate].
      exists m. split; [eapply nth_error_In; eassumption|]. now injection Hp.
Qed.

Lemma updateVisibleNodes_cursor_witness :
  (exists r' vis' c',
    updateVisibleNodes [] (Some sample_tree)
      (visible_rec [] (set_expanded sample_tree_A_collapsed)) 2 = Some (r', vis', c') /\
    (0 <= c')%Z /\
    ((exists m, In m vis' /\ path m = "/home/u/proj/z") ->
       (c' < Z.of_nat (List.length vis'))%Z /\
       option_map path (nth_error vis' (Z.to_nat c')) = Some "/home/u/proj/z" /\
       (forall j, (j < Z.to_nat c')%nat ->
          option_map path (nth_error vis' j) <> Some "/home/u/proj/z")) /\
    ((~ exists m, In m vis' /\ path m = "/home/u/proj/z") ->
       c' = Z.min 2 (Z.of_nat (List.length vis') - 1))) /\
  (exists r' vis' c',
    updateVisibleNodes [] (Some sample_tree_A_collapsed)
      (visible_rec [] (set_expanded sample_tree)) 3 = Some (r', vis', c') /\
    (0 <= c')%Z /\
    ((exists m, In m vis' /\ path m = "/home/u/proj/A/y") ->
       (c' < Z.of_nat (List.length vis'))%Z /\
       option_map path (nth_error vis' (Z.to_nat c')) = Some "/home/u/proj/A/y" /\
       (forall j, (j < Z.to_nat c')%nat ->
          option_map path (nth_error vis' j) <> Some "/home/u/proj/A/y")) /\
    ((~ exists m, In m vis' /\ path m = "/home/u/proj/A/y") ->
       c' = Z.min 3 (Z.of_nat (List.length vis') - 1))) /\
  option_map snd (updateVisibleNodes [] (Some sample_tree)
    (visible_rec [] (set_expanded sample_tree_A_collapsed)) 2) = Some 4%Z /\
  option_map snd (updateVisibleNodes [] (Some sample_tree_A_collapsed)
    (visible_rec [] (set_expanded sample_tree)) 3) = Some 2%Z.
Proof.
  split; [|split; [|split; vm_compute; reflexivity]].
  - apply (updateVisibleNodes_cursor [] sample_tree _ 2 (file_node "/home/u/proj/z" "z" false)).
    + split; [lia | vm_compute; reflexivity].
    + vm_compute; reflexivity.
    + discriminate.
  - apply (updateVisibleNodes_cursor [] sample_tree_A_collapsed _ 3
             (file_node "/home/u/proj/A/y" "y" false)).
    + split; [lia | vm_compute; reflexivity].
    + vm_compute; reflexivity.
    + discriminate.
Defined.

(** C8.  A file whose bytes begin with 0x89 0x50 0x4E 0x47 (PNG) is
    classified binary, whatever bytes follow. *)
Theorem isBinaryFile_png rest :
  isBinaryFile (Some (Byte.x89 :: Byte.x50 :: Byte.x4e :: Byte.x47 :: rest)) = true.
Proof. reflexivity. Qed.

(** C9.  [expandNode] on a path absent from the node map, or naming a file,
    leaves the whole tree unchanged: no node's expanded, loaded, children or
    selection field changes. *)
Theorem expandNode_noop {SelectState : Type} (none : SelectState)
  (localeCompare : string -> string -> comparison) readdirSync
  (root : DirectoryTreeNode) p :
  (t_lookup p root = None \/
   exists n, t_lookup p root = Some n /\ t_isDirectory n = false) ->
  expandNode none localeCompare readdirSync root p = root.
Proof.
  unfold expandNode. intros [->|[n [-> Hd]]]; [reflexivity|].
  now rewrite Hd.
Qed.

Lemma expandNode_noop_witness :
  expandNode false localeCompare_root (fun _ => Some [("x", false)])
    (mkTreeNode "/r" "r" true [mkTreeNode "/r/f" "f" false [] false false false]
                true false true) "/r/f" =
    mkTreeNode "/r" "r" true [mkTreeNode "/r/f" "f" false [] false false false]
               true false true.
Proof.
  apply expandNode_noop. right. eexists. split; reflexivity.
Defined.

Lemma findIndex_absent p l : ~ In p l -> FileExport.findIndex p l = (-1)%Z.
Proof.
  induction l as [|x l IH]; intros Hn; [reflexivity|]. simpl.
  destruct (String.eqb x p) eqn:E.
  - apply String.eqb_eq in E. exfalso. apply Hn. now left.
  - rewrite IH by (intros H; apply Hn; now right). reflexivity.
Qed.

(** C10.  On a non-empty list that does not contain [p], [removeFile(p)]
    deletes the last element: [findIndex] gives -1 and [splice(-1, 1)] removes
    the final entry. *)
Theorem removeFile_absent_drops_last l p :
  l <> [] -> ~ In p l -> FileExport.removeFile l p = removelast l.
Proof.
  intros Hl Hn. unfold FileExport.removeFile, FileExport.splice1.
  rewrite findIndex_absent by exact Hn. cbv zeta.
  replace ((-1 <? 0)%Z) with true by reflexivity.
  assert (Hlen : (1 <= List.length l)%nat) by (destruct l; [contradiction | simpl; lia]).
  replace (Z.to_nat (Z.max (Z.of_nat (List.length l) + -1) 0)) with (Nat.pred (List.length l))
    by lia.
  rewrite removelast_firstn_len.
  rewrite skipn_all2 by lia.
  apply app_nil_r.
Qed.

Lemma removeFile_absent_drops_last_witness :
  FileExport.removeFile ["/a"; "/b"; "/c"] "/z" = ["/a"; "/b"].
Proof.
  apply removeFile_absent_drops_last.
  - discriminate.
  - simpl. intros [H|[H|[H|[]]]]; discriminate.
Defined.

(** ** Further properties of the code *)

Lemma nodes_update_at_cases q f t m' :
  In m' (nodes (update_at q f t)) ->
  (exists n, In n (nodes t) /\ path n = q /\ In m' (nodes (f n))) \/
  (exists m, In m (nodes t) /\ path m <> q /\ m' = update_at q f m).
Proof.
  induction t as [t IH] using node_ind'. intros H.
  assert (Ht : In t (nodes t)) by (rewrite nodes_unfold; now left).
  destruct (String.eqb (path t) q) eqn:E.
  - left. exists t. split; [exact Ht|]. split; [now apply String.eqb_eq|].
    destruct t; simpl in *. now rewrite E in H.
  - assert (Hu : update_at q f t = mkNode (path t) (name t) (isDirectory t)
                   (map (update_at q f) (children t)) (expanded t) (selected t)
                   (partiallySelected t)) by (destruct t; simpl in *; now rewrite E).
    rewrite Hu, nodes_unfold in H. simpl in H. destruct H as [H|H].
    + right. exists t. split; [exact Ht|]. split; [now apply String.eqb_neq|].
      now rewrite Hu.
    + apply in_flat_map in H as [c' [Hc' Hm]]. apply in_map_iff in Hc' as [c [<- Hc]].
      destruct (IH c Hc Hm) as [[n [Hn Hr]]|[m [Hm0 Hr]]].
      * left. exists n. split; [|exact Hr]. eapply in_nodes_child; eauto.
      * right. exists m. split; [|exact Hr]. eapply in_nodes_child; eauto.
Qed.

Lemma sel_state_update_other q f c :
  path c <> q -> sel_state (update_at q f c) = sel_state c.
Proof.
  intros H. destruct c as [p nm d cs e s ps]. simpl in *.
  now rewrite (proj2 (String.eqb_neq p q) H).
Qed.

Lemma forallb_map_ext (g : DirectoryNode -> DirectoryNode) (h : DirectoryNode -> bool) cs :
  (forall c, In c cs -> h (g c) = h c) -> forallb h (map g cs) = forallb h cs.
Proof.
  induction cs as [|c cs IH]; intros H; [reflexivity|]. simpl.
  rewrite H by (now left). f_equal. apply IH. intros x Hx. apply H. now right.
Qed.

Lemma derived_state_map g cs :
  (forall c, In c cs -> sel_state (g c) = sel_state c) ->
  derived_state (map g cs) = derived_state cs.
Proof.
  intros H. unfold derived_state.
  rewrite !(forallb_map_ext g) by (intros c Hc; now rewrite H). reflexivity.
Qed.

Lemma tri_state_ok_update_other q f m :
  path m <> q -> (forall c, In c (children m) -> path c <> q) ->
  tri_state_ok (update_at q f m) = tri_state_ok m.
Proof.
  intros Hm Hc. destruct m as [p nm d cs e s ps]. simpl in *.
  rewrite (proj2 (String.eqb_neq p q) Hm). unfold tri_state_ok. simpl.
  rewrite length_map, derived_state_map; [reflexivity|].
  intros c Hc'. apply sel_state_update_other, Hc, Hc'.
Qed.

Lemma forallb_sel_state_full cs :
  forallb (fun c => SelState_eqb (sel_state c) SFull) cs = forallb selected cs.
Proof.
  induction cs as [|c cs IH]; [reflexivity|]. simpl. rewrite IH. unfold sel_state.
  destruct (selected c), (partiallySelected c); reflexivity.
Qed.

Lemma forallb_sel_state_none cs :
  forallb (fun c => SelState_eqb (sel_state c) SNone) cs =
  negb (existsb (fun c => selected c || partiallySelected c) cs).
Proof.
  induction cs as [|c cs IH]; [reflexivity|]. simpl. rewrite IH. unfold sel_state.
  destruct (selected c), (partiallySelected c); reflexivity.
Qed.

Lemma tri_state_ok_updateDirectorySelectionState m :
  tri_state_ok (updateDirectorySelectionState m) = true.
Proof.
  destruct m as [p nm d cs e s ps].
  unfold updateDirectorySelectionState, tri_state_ok, derived_state, set_selection.
  cbn [isDirectory children negb orb path name expanded].
  destruct d; [|reflexivity]. cbn [negb orb].
  destruct (Nat.eqb (List.length cs) 0) eqn:El;
    cbn [isDirectory children andb negb]; rewrite ?El; [reflexivity|].
  rewrite !forallb_sel_state_full, !forallb_sel_state_none.
  destruct (forallb selected cs) eqn:F1;
    [cbn [isDirectory children andb negb]; rewrite ?El, ?F1; reflexivity|].
  destruct (existsb (fun c => selected c || partiallySelected c) cs) eqn:F2;
    cbn [isDirectory children andb negb]; rewrite ?El, ?F1, ?F2; reflexivity.
Qed.

Lemma nodes_trans n m x : In m (nodes n) -> In x (nodes m) -> In x (nodes n).
Proof.
  induction n as [n IH] using node_ind'. intros Hm Hx.
  destruct (in_nodes_inv _ _ Hm) as [->|[c [Hc Hmc]]]; [exact Hx|].
  eapply in_nodes_child; [exact Hc|]. eapply IH; eauto.
Qed.

Lemma in_nodes_self n : In n (nodes n).
Proof. rewrite nodes_unfold. now left. Qed.

Lemma tri_state_ok_uniform n s :
  (forall m, In m (nodes n) -> selected m = s /\ partiallySelected m = false) ->
  forall m, In m (nodes n) -> tri_state_ok m = true.
Proof.
  intros Hall m Hm. unfold tri_state_ok.
  destruct (isDirectory m && negb (List.length (children m) =? 0)%nat) eqn:E; [|reflexivity].
  apply andb_true_iff in E as [_ E]. apply negb_true_iff in E.
  assert (Hc : forall c, In c (children m) -> selected c = s /\ partiallySelected c = false).
  { intros c Hc. apply Hall. eapply nodes_trans; [exact Hm|].
    eapply in_nodes_child; [exact Hc | apply in_nodes_self]. }
  destruct (Hall m Hm) as [Hs Hp].
  unfold derived_state, sel_state at 1. rewrite Hs, Hp.
  destruct (children m) as [|c0 cs] eqn:Ecs; [discriminate|].
  rewrite forallb_sel_state_full, forallb_sel_state_none.
  destruct s.
  - replace (forallb selected (c0 :: cs)) with true; [reflexivity|].
    symmetry. apply forallb_forall. intros c Hc'. now apply Hc.
  - replace (forallb selected (c0 :: cs)) with false.
    + replace (existsb (fun c => selected c || partiallySelected c) (c0 :: cs)) with false;
        [reflexivity|].
      symmetry. apply not_true_iff_false. intros Hx. apply existsb_exists in Hx as [c [Hc' Hx]].
      destruct (Hc c Hc') as [E1 E2]. rewrite E1, E2 in Hx. discriminate.
    + simpl. destruct (Hc c0 (or_introl eq_refl)) as [-> _]. reflexivity.
Qed.

(** A node of a well-formed tree whose child has path [q] is the directory
    with path [parentPathOf q], when no path ends in '/'. *)
Lemma parent_of_child_path t m c :
  wf_node t -> endsWithSlash (path t) = false -> In m (nodes t) -> In c (children m) ->
  path m = parentPathOf (path c).
Proof.
  intros Hw He Hm Hc. pose proof (wf_nodes _ _ Hw Hm) as Hwm.
  destruct (wf_node_inv _ Hwm) as (_ & Hj & _). destruct (Hj c Hc) as (Hp & _ & Hs).
  rewrite Hp, parentPathOf_join; [reflexivity | | exact Hs].
  exact (wf_no_trailing_slash t m Hw He Hm).
Qed.

Lemma descendant_path_longer n c d :
  wf_node n -> In c (children n) -> In d (nodes c) ->
  (String.length (path n) < String.length (path d))%nat.
Proof.
  intros Hw Hc Hd. destruct (wf_node_inv _ Hw) as (_ & Hj & Hwc).
  destruct (Hj c Hc) as (Hp & Hn & _).
  pose proof (join_length (path n) (name c) Hn).
  pose proof (wf_path_length c d (Hwc c Hc) Hd). rewrite <- Hp in *. lia.
Qed.

Lemma path_update_other q f m : path m <> q -> path (update_at q f m) = path m.
Proof.
  intros H. destruct m as [p nm d cs e s ps]. simpl in *.
  now rewrite (proj2 (String.eqb_neq p q) H).
Qed.


Lemma bad_within_none t : bad_within t (fun _ => False) -> tri_state_invariant t = true.
Proof.
  intros H. unfold tri_state_invariant. apply forallb_forall. intros m Hm.
  destruct (tri_state_ok m) eqn:E; [reflexivity|]. exfalso. exact (H m Hm E).
Qed.

Lemma parentWalk_fst fuel t q :
  fst (parentWalk (S fuel) t q) =
  match lookup q t with
  | None => t
  | Some par => fst (parentWalk fuel (update_at (path par) updateDirectorySelectionState t)
                                  (parentPathOf (path par)))
  end.
Proof.
  simpl. destruct (lookup q t); [|reflexivity].
  destruct (parentWalk fuel _ _). reflexivity.
Qed.

Lemma parentWalk_invariant fuel t q :
  wf_tree t -> endsWithSlash (path t) = false ->
  (String.length q < fuel)%nat ->
  bad_within t (fun x => In x (parent_chain fuel (fun y => mem_string y (paths t)) q)) ->
  tri_state_invariant (fst (parentWalk fuel t q)) = true.
Proof.
  revert t q. induction fuel as [|fuel IH]; intros t q Hw He Hf Hb; [lia|].
  rewrite parentWalk_fst.
  destruct (lookup q t) as [par|] eqn:Hl.
  - destruct (lookup_spec _ _ _ Hl) as [Hpq Hpar]. rewrite Hpq.
    set (t' := update_at q updateDirectorySelectionState t).
    assert (Hq : q <> "") by (rewrite <- Hpq; eapply wf_tree_path_nonempty; eauto).
    pose proof (parentPathOf_length_lt q Hq) as Hlt.
    assert (Hpaths : paths t' = paths t).
    { apply paths_update_at, flags_only_paths, flags_only_updateDirectorySelectionState. }
    assert (Hqin : In q (paths t)) by (rewrite <- Hpq; unfold paths; now apply in_map).
    assert (Hchain : parent_chain (S fuel) (fun y => mem_string y (paths t)) q =
                     q :: parent_chain fuel (fun y => mem_string y (paths t)) (parentPathOf q)).
    { simpl. now rewrite (proj2 (mem_string_spec q (paths t)) Hqin). }
    destruct Hw as [Hw Hne].
    apply IH.
    + split; [apply wf_update_at; [apply keeps_shape_updateDirectorySelectionState | exact Hw]|].
      unfold t'. rewrite (proj1 (update_at_path_name _ _ _
        (proj1 keeps_shape_updateDirectorySelectionState))). exact Hne.
    + unfold t'. rewrite (proj1 (update_at_path_name _ _ _
        (proj1 keeps_shape_updateDirectorySelectionState))). exact He.
    + lia.
    + rewrite Hpaths. intros m' Hm' Hbad.
      destruct (nodes_update_at_cases _ _ _ _ Hm') as [[n [Hn [Hnq Hin]]]|[m [Hm [Hmq ->]]]].
      * rewrite nodes_unfold in Hin.
        destruct (flags_only_updateDirectorySelectionState n) as [_ Hch].
        destruct Hin as [<-|Hin].
        -- now rewrite tri_state_ok_updateDirectorySelectionState in Hbad.
        -- rewrite Hch in Hin. apply in_flat_map in Hin as [c [Hc Hd]].
           assert (Hlong := descendant_path_longer n c m' (wf_nodes _ _ Hw Hn) Hc Hd).
           specialize (Hb m' (nodes_trans _ _ _ Hn (in_nodes_child _ _ _ Hc Hd)) Hbad).
           rewrite Hchain in Hb. destruct Hb as [Hb|Hb]; [|exact Hb].
           rewrite Hnq, Hb in Hlong. lia.
      * destruct (In_dec string_dec q (map path (children m))) as [Hpc|Hpc].
        -- apply in_map_iff in Hpc as [c [Hcq Hc]].
           rewrite (path_update_other _ _ _ Hmq).
           rewrite (parent_of_child_path t m c Hw He Hm Hc), Hcq.
           assert (Hpp : In (parentPathOf q) (paths t)).
           { rewrite <- Hcq, <- (parent_of_child_path t m c Hw He Hm Hc).
             unfold paths. now apply in_map. }
           destruct fuel as [|fuel']; [lia|]. simpl.
           rewrite (proj2 (mem_string_spec _ _) Hpp). now left.
        -- rewrite tri_state_ok_update_other in Hbad; [|exact Hmq|].
           ++ rewrite (path_update_other _ _ _ Hmq).
              specialize (Hb m Hm Hbad). rewrite Hchain in Hb.
              destruct Hb as [Hb|Hb]; [congruence | exact Hb].
           ++ intros c Hc Hcq. apply Hpc. rewrite <- Hcq. now apply in_map.
  - apply bad_within_none. intros m Hm Hbad. specialize (Hb m Hm Hbad).
    simpl in Hb. destruct (mem_string q (paths t)) eqn:E; [|exact Hb].
    apply mem_string_spec in E. destruct (lookup_complete _ _ E) as [x Hx]. congruence.
Qed.

Lemma NoDup_map_path_inj l a b :
  NoDup (map path l) -> In a l -> In b l -> path a = path b -> a = b.
Proof.
  induction l as [|x l IH]; intros Hnd Ha Hb Hab; [destruct Ha|].
  simpl in Hnd. apply NoDup_cons_iff in Hnd as [Hx Hnd].
  destruct Ha as [<-|Ha], Hb as [<-|Hb]; [reflexivity | | | now apply IH].
  - exfalso. apply Hx. rewrite Hab. now apply in_map.
  - exfalso. apply Hx. rewrite <- Hab. now apply in_map.
Qed.

Lemma tri_state_invariant_ok t m :
  tri_state_invariant t = true -> In m (nodes t) -> tri_state_ok m = true.
Proof. intros H Hm. unfold tri_state_invariant in H. rewrite forallb_forall in H. auto. Qed.

(** After the first stamp of [toggleSelect], only the toggled node (when it
    is a directory) and its parent can break the tri-state. *)
Lemma toggle_phase1 t p ns :
  wf_node t -> endsWithSlash (path t) = false -> tri_state_invariant t = true ->
  bad_within (update_at p (set_selection ns false) t)
    (fun x => x = parentPathOf p \/
              (x = p /\ exists n0, In n0 (nodes t) /\ path n0 = p /\ isDirectory n0 = true)).
Proof.
  intros Hw He Hinv m' Hm' Hbad.
  destruct (nodes_update_at_cases _ _ _ _ Hm') as [[n0 [Hn0 [Hp0 Hin]]]|[m [Hm [Hmq ->]]]].
  - rewrite nodes_unfold in Hin. destruct Hin as [<-|Hin].
    + right. split; [exact Hp0|]. exists n0. split; [exact Hn0|]. split; [exact Hp0|].
      destruct (isDirectory n0) eqn:Ed; [reflexivity|].
      unfold tri_state_ok in Hbad. simpl in Hbad. rewrite Ed in Hbad. discriminate.
    + simpl in Hin. apply in_flat_map in Hin as [c [Hc Hd]].
      rewrite (tri_state_invariant_ok t m' Hinv) in Hbad; [discriminate|].
      eapply nodes_trans; [exact Hn0|]. eapply in_nodes_child; eauto.
  - left. rewrite (path_update_other _ _ _ Hmq).
    destruct (In_dec string_dec p (map path (children m))) as [Hpc|Hpc].
    + apply in_map_iff in Hpc as [c [Hcq Hc]].
      rewrite (parent_of_child_path t m c Hw He Hm Hc), Hcq. reflexivity.
    + rewrite tri_state_ok_update_other in Hbad; [|exact Hmq|].
      * rewrite (tri_state_invariant_ok t m Hinv Hm) in Hbad. discriminate.
      * intros c Hc Hcq. apply Hpc. rewrite <- Hcq. now apply in_map.
Qed.

(** The recursive stamp of a directory leaves its whole subtree consistent. *)
Lemma toggle_phase2 r p ns :
  wf_node r -> endsWithSlash (path r) = false ->
  bad_within r (fun x => x = parentPathOf p \/ x = p) ->
  bad_within (update_at p (setSelectionRecursive ns) r) (fun x => x = parentPathOf p).
Proof.
  intros Hw He Hb m' Hm' Hbad.
  destruct (nodes_update_at_cases _ _ _ _ Hm') as [[n1 [Hn1 [Hp1 Hin]]]|[m [Hm [Hmq ->]]]].
  - rewrite (tri_state_ok_uniform (setSelectionRecursive ns n1) ns
               (fun x Hx => setSelectionRecursive_all ns n1 x (wf_nodes _ _ Hw Hn1) Hx)
               m' Hin) in Hbad. discriminate.
  - rewrite (path_update_other _ _ _ Hmq).
    destruct (In_dec string_dec p (map path (children m))) as [Hpc|Hpc].
    + apply in_map_iff in Hpc as [c [Hcq Hc]].
      rewrite (parent_of_child_path r m c Hw He Hm Hc), Hcq. reflexivity.
    + rewrite tri_state_ok_update_other in Hbad; [|exact Hmq|].
      * destruct (Hb m Hm Hbad) as [H|H]; [exact H | congruence].
      * intros c Hc Hcq. apply Hpc. rewrite <- Hcq. now apply in_map.
Qed.

Lemma walk_from_bad_parent r q :
  wf_tree r -> endsWithSlash (path r) = false ->
  bad_within r (fun x => x = parentPathOf q) ->
  tri_state_invariant (fst (parentWalk (S (String.length q)) r (parentPathOf q))) = true.
Proof.
  intros Hw He Hb. apply parentWalk_invariant; [exact Hw | exact He | |].
  - pose proof (parentPathOf_length_le q). lia.
  - intros m Hm Hbad. rewrite (Hb m Hm Hbad). simpl.
    assert (Hin : In (parentPathOf q) (paths r)).
    { rewrite <- (Hb m Hm Hbad). unfold paths. now apply in_map. }
    rewrite (proj2 (mem_string_spec _ _) Hin). now left.
Qed.

(** ** The directories the upward walk recomputes *)

Lemma update_at_U_frame q t :
  Forall2 (fun m m' => path m' = path m /\ isDirectory m' = isDirectory m /\
             List.length (children m') = List.length (children m) /\
             (sel_state m' = sel_state m \/
              (path m = q /\ isDirectory m = true /\ children m <> [])))
    (nodes t) (nodes (update_at q updateDirectorySelectionState t)).
Proof.
  induction t as [t IH] using node_ind'.
  destruct t as [pn nm d cs e s ps]. simpl update_at.
  destruct (String.eqb pn q) eqn:E.
  - apply String.eqb_eq in E.
    destruct (flags_only_updateDirectorySelectionState (mkNode pn nm d cs e s ps)) as [H1 H2].
    rewrite (nodes_unfold (updateDirectorySelectionState _)), H2. simpl.
    constructor.
    + split; [exact H1|]. unfold updateDirectorySelectionState. simpl.
      destruct d; simpl; [|split; [reflexivity | split; [reflexivity | now left]]].
      destruct (Nat.eqb_spec (List.length cs) 0) as [Hl|Hl]; simpl;
        [split; [reflexivity | split; [reflexivity | now left]]|].
      assert (Hcs : cs <> []) by (intros ->; simpl in Hl; lia).
      split; [repeat match goal with |- context [if ?b then _ else _] => destruct b end;
              reflexivity|].
      split; [repeat match goal with |- context [if ?b then _ else _] => destruct b end;
              reflexivity|].
      right. auto.
    + apply Forall2_refl. intros x _. split; [reflexivity|]. split; [reflexivity|].
      split; [reflexivity | now left].
  - simpl. constructor.
    + split; [reflexivity|]. split; [reflexivity|]. split; [apply length_map | now left].
    + apply Forall2_flat_map. intros c Hc. apply IH. exact Hc.
Qed.

Lemma parentWalk_frame_dir fuel t q :
  Forall2 (fun m m' => path m' = path m /\ isDirectory m' = isDirectory m /\
             List.length (children m') = List.length (children m) /\
             (sel_state m' = sel_state m \/
              (In (path m) (snd (parentWalk fuel t q)) /\
               isDirectory m = true /\ children m <> [])))
    (nodes t) (nodes (fst (parentWalk fuel t q))).
Proof.
  revert t q. induction fuel as [|fuel IH]; intros t q; simpl.
  - apply Forall2_refl. intros x _. repeat split. now left.
  - destruct (lookup q t) as [par|];
      [|apply Forall2_refl; intros x _; repeat split; now left].
    destruct (parentWalk fuel _ _) as [r v] eqn:E. simpl.
    specialize (IH (update_at (path par) updateDirectorySelectionState t)
                   (parentPathOf (path par))).
    rewrite E in IH. simpl in IH.
    eapply Forall2_compose; [|apply update_at_U_frame | exact IH].
    intros x y z (H1 & H2 & H3 & H4) (H5 & H6 & H7 & H8).
    split; [congruence|]. split; [congruence|]. split; [congruence|].
    destruct H4 as [H4|(H4 & H4d & H4c)]; destruct H8 as [H8|(H8 & H8d & H8c)].
    + left; congruence.
    + right. split; [right; congruence|]. split; [congruence|].
      intros Hx. rewrite Hx in H3. destruct (children y); [exact (H8c eq_refl)|discriminate].
    + right. split; [left; congruence|]. split; assumption.
    + right. split; [left; congruence|]. split; assumption.
Qed.

Lemma parentWalk_visited_ok_gen fuel t q V :
  wf_tree t ->
  (forall x, In x V -> (String.length q < String.length x)%nat) ->
  (forall m, In m (nodes t) -> In (path m) V -> tri_state_ok m = true) ->
  forall m, In m (nodes (fst (parentWalk fuel t q))) ->
    In (path m) (V ++ snd (parentWalk fuel t q)) -> tri_state_ok m = true.
Proof.
  revert t q V. induction fuel as [|fuel IH]; intros t q V Hwf HV Hok m Hm Hin.
  - simpl in Hm, Hin. rewrite app_nil_r in Hin. now apply Hok.
  - simpl in Hm, Hin. destruct (lookup q t) as [par|] eqn:Hl.
    2: { simpl in Hm, Hin. rewrite app_nil_r in Hin. now apply Hok. }
    destruct (lookup_spec _ _ _ Hl) as [Hpq Hpar]. rewrite Hpq in Hm, Hin.
    destruct (parentWalk fuel (update_at q updateDirectorySelectionState t) (parentPathOf q))
      as [r v] eqn:E.
    simpl in Hm, Hin.
    specialize (IH (update_at q updateDirectorySelectionState t) (parentPathOf q) (V ++ [q])%list).
    rewrite E in IH. simpl in IH. pose proof Hwf as [Hw Hne].
    assert (Hq : q <> "") by (rewrite <- Hpq; eapply wf_tree_path_nonempty; eauto).
    pose proof (parentPathOf_length_lt q Hq) as Hlt.
    apply IH; [| | |exact Hm | now rewrite <- app_assoc].
    + split; [apply wf_update_at; [apply keeps_shape_updateDirectorySelectionState | exact Hw]|].
      rewrite (proj1 (update_at_path_name _ _ _
        (proj1 keeps_shape_updateDirectorySelectionState))). exact Hne.
    + intros x Hx. apply in_app_or in Hx as [Hx|[<-|[]]]; [specialize (HV x Hx); lia | lia].
    + intros m' Hm' Hin'.
      destruct (nodes_update_at_cases _ _ _ _ Hm') as [[n [Hn [Hnq Hinn]]]|[m0 [Hm0 [Hmq ->]]]].
      * rewrite nodes_unfold in Hinn.
        destruct (flags_only_updateDirectorySelectionState n) as [_ Hch].
        destruct Hinn as [<-|Hinn]; [apply tri_state_ok_updateDirectorySelectionState|].
        rewrite Hch in Hinn. apply in_flat_map in Hinn as [c [Hc Hd]].
        assert (Hlong := descendant_path_longer n c m' (wf_nodes _ _ Hw Hn) Hc Hd).
        apply Hok; [exact (nodes_trans _ _ _ Hn (in_nodes_child _ _ _ Hc Hd))|].
        apply in_app_or in Hin' as [Hin'|[Heq|[]]]; [exact Hin'|].
        rewrite Hnq, Heq in Hlong. lia.
      * rewrite (path_update_other _ _ _ Hmq) in Hin'.
        assert (HinV : In (path m0) V)
          by (apply in_app_or in Hin' as [Hin'|[Heq|[]]]; [exact Hin' | congruence]).
        rewrite tri_state_ok_update_other; [now apply Hok | exact Hmq|].
        intros c Hc Hcq.
        pose proof (descendant_path_longer m0 c c (wf_nodes _ _ Hw Hm0) Hc (in_nodes_self c)).
        specialize (HV _ HinV). rewrite Hcq in *. lia.
Qed.

Lemma parentWalk_visited_ok fuel t q m :
  wf_tree t -> In m (nodes (fst (parentWalk fuel t q))) ->
  In (path m) (snd (parentWalk fuel t q)) -> tri_state_ok m = true.
Proof.
  intros Hw Hm Hin. apply (parentWalk_visited_ok_gen fuel t q []); auto.
  intros x [].
Qed.

Lemma Forall2_weaken_In {A B} (R R' : A -> B -> Prop) l1 l2 :
  (forall x y, In x l1 -> In y l2 -> R x y -> R' x y) -> Forall2 R l1 l2 -> Forall2 R' l1 l2.
Proof.
  intros H H1. induction H1 as [|x y l1 l2 Hxy _ IH]; constructor.
  - apply H; [now left | now left | exact Hxy].
  - apply IH. intros a b Ha Hb. apply H; now right.
Qed.

Lemma SelState_eqb_eq a b : SelState_eqb a b = true -> a = b.
Proof. destruct a, b; simpl; congruence. Qed.

(** Every node [toggleSelect] changes is in the subtree of the toggled node,
    or an ancestor of it that the upward walk recomputed: a directory with
    children whose state is the one derived from its children. *)
Lemma toggle_at_frame_recomputed t p :
  wf_tree t ->
  Forall2 (fun m m' => path m' = path m /\
             (sel_state m' = sel_state m \/ is_under p (path m) \/
              (is_under (path m) p /\ path m <> p /\
               isDirectory m' = true /\ children m' <> [] /\
               sel_state m' = derived_state (children m'))))
    (nodes t) (nodes (toggle_at t p)).
Proof.
  intros Hwf. pose proof Hwf as [Hw Hne]. unfold toggle_at, toggleSelect.
  destruct (lookup p t) as [n|] eqn:Hl; [|apply Forall2_refl; auto].
  destruct (lookup_spec _ _ _ Hl) as [Hp _]. subst p.
  unfold updateParentSelectionStates, updateParentSelectionStates_trace.
  set (ns := negb (selected n)).
  set (root1 := update_at (path n) (set_selection ns false) t).
  set (root2 := if isDirectory n
                then update_at (path n) (setSelectionRecursive ns) root1 else root1).
  assert (Hw1 : wf_node root1)
    by (apply wf_update_at; [apply keeps_shape_set_selection | exact Hw]).
  assert (Hp1 : path root1 = path t)
    by (apply update_at_path_name, keeps_shape_set_selection).
  assert (Hwf2 : wf_tree root2).
  { unfold root2. split.
    - destruct (isDirectory n); [|exact Hw1].
      apply wf_update_at; [apply keeps_shape_setSelectionRecursive | exact Hw1].
    - destruct (isDirectory n); [|congruence].
      rewrite (proj1 (update_at_path_name _ _ _ (proj1 (keeps_shape_setSelectionRecursive ns)))).
      congruence. }
  assert (Hpaths : paths root2 = paths t).
  { unfold root2, root1. destruct (isDirectory n);
      rewrite ?paths_update_at; try reflexivity;
      try apply paths_setSelectionRecursive; apply paths_set_selection. }
  assert (F12 : Forall2 (fun m m' => path m' = path m /\
                          (sel_state m' = sel_state m \/ is_under (path n) (path m)))
                        (nodes t) (nodes root2)).
  { assert (F1 : Forall2 (fun m m' => path m' = path m /\
                          (sel_state m' = sel_state m \/ is_under (path n) (path m)))
                        (nodes t) (nodes root1)).
    { eapply Forall2_weaken; [|apply update_at_frame, flags_only_set_selection].
      intros x y [H1 [H2|H2]]; split; auto. right. rewrite H2. apply is_under_refl. }
    unfold root2. destruct (isDirectory n); [|exact F1].
    eapply Forall2_compose; [|exact F1 | apply update_at_setSelection_frame; exact Hw1].
    intros x y z [H1 H2] [H3 H4]. split; [congruence|].
    destruct H2 as [H2|H2]; destruct H4 as [H4|H4]; try (right; congruence).
    left; congruence. }
  set (fuel := S (String.length (path n))).
  set (q := parentPathOf (path n)).
  assert (FW : Forall2 (fun m m' => path m' = path m /\
                 (sel_state m' = sel_state m \/
                  (In (path m) (snd (parentWalk fuel root2 q)) /\
                   isDirectory m' = true /\ children m' <> [] /\ tri_state_ok m' = true)))
               (nodes root2) (nodes (fst (parentWalk fuel root2 q)))).
  { eapply Forall2_weaken_In; [|apply parentWalk_frame_dir].
    intros y z _ Hz (H1 & H2 & H3 & [H4|(H4 & H4d & H4c)]); split; auto.
    right. split; [exact H4|]. split; [congruence|]. split.
    - intros Hc. rewrite Hc in H3. destruct (children y); [exact (H4c eq_refl)|discriminate].
    - apply (parentWalk_visited_ok fuel root2 q z Hwf2 Hz). congruence. }
  eapply Forall2_compose; [|exact F12 | exact FW].
  intros x y z [H1 H2] [H3 H4]. split; [congruence|].
  destruct H4 as [H4|(H4 & Hd & Hc & Hok)].
  - destruct H2 as [H2|H2]; [left; congruence | right; left; exact H2].
  - right; right. unfold fuel, q in H4. rewrite parentWalk_visited, Hpaths in H4.
    assert (Hne' : forall s, mem_string s (paths t) = true -> s <> "").
    { intros s Hs. apply mem_string_spec in Hs. unfold paths in Hs.
      apply in_map_iff in Hs as [m [<- Hm]]. exact (wf_tree_path_nonempty t m Hwf Hm). }
    destruct (parent_chain_ancestors _ _ (path n) (path n) Hne' (is_under_refl _)
                (le_n _) (path y) H4) as [Hu Hlt].
    rewrite H1 in Hu, Hlt. split; [exact Hu|]. split; [intros E; rewrite E in Hlt; lia|].
    split; [exact Hd|]. split; [exact Hc|].
    unfold tri_state_ok in Hok. rewrite Hd in Hok.
    destruct (children z) as [|c0 cs] eqn:Ecs; [contradiction Hc; reflexivity|].
    simpl in Hok. now apply SelState_eqb_eq.
Qed.

(** C3 (amended).  Toggling a directory that is not Full makes the directory
    and each of its N descendants Full (N+1 nodes).  Every other node whose
    state changes is an ancestor of it that the upward walk recomputed: a
    directory with children whose new state is the one derived from them
    (Full iff all are Full, None iff all are None, Partial otherwise), so an
    ancestor may become Full too.  Toggling it again makes those N+1 nodes
    None. *)
Theorem toggle_dir_twice t p n :
  wf_tree t -> lookup p t = Some n -> isDirectory n = true -> sel_state n <> SFull ->
  (exists n1, lookup p (toggle_at t p) = Some n1 /\
     List.length (nodes n1) = List.length (nodes n) /\
     (forall m, In m (nodes n1) -> sel_state m = SFull)) /\
  Forall2 (fun m m' => path m' = path m /\
             (sel_state m' = sel_state m \/ is_under p (path m) \/
              (is_under (path m) p /\ path m <> p /\
               isDirectory m' = true /\ children m' <> [] /\
               sel_state m' = derived_state (children m'))))
          (nodes t) (nodes (toggle_at t p)) /\
  (exists n2, lookup p (toggle_at (toggle_at t p) p) = Some n2 /\
     List.length (nodes n2) = List.length (nodes n) /\
     (forall m, In m (nodes n2) -> sel_state m = SNone)).
Proof.
  intros Hw Hl Hd Hns.
  assert (Hsel : selected n = false).
  { destruct (selected n) eqn:E; [|reflexivity]. exfalso. apply Hns.
    unfold sel_state. now rewrite E. }
  destruct (toggle_at_subtree t p n Hw Hl) as (n1 & A1 & A2 & A3 & A4 & A5 & A6).
  rewrite Hsel in A4, A6. simpl in A4, A6.
  split; [|split].
  - exists n1. split; [exact A1|]. split; [now apply length_nodes_paths|].
    intros m Hm. destruct (A6 Hd m Hm) as [E1 E2]. unfold sel_state. now rewrite E1.
  - now apply toggle_at_frame_recomputed.
  - destruct (toggle_at_subtree (toggle_at t p) p n1 (wf_tree_toggle_at t p Hw) A1)
      as (n2 & B1 & B2 & B3 & B4 & B5 & B6).
    rewrite A4 in B4, B6. simpl in B4, B6.
    exists n2. split; [exact B1|]. split.
    + rewrite (length_nodes_paths _ _ B2). now apply length_nodes_paths.
    + intros m Hm. rewrite A3 in B6. destruct (B6 Hd m Hm) as [E1 E2].
      unfold sel_state. now rewrite E1, E2.
Qed.

Lemma toggle_dir_twice_witness :
  exists n, lookup "/r/d" chain_tree = Some n /\
  ((exists n1, lookup "/r/d" (toggle_at chain_tree "/r/d") = Some n1 /\
     List.length (nodes n1) = List.length (nodes n) /\
     (forall m, In m (nodes n1) -> sel_state m = SFull)) /\
  Forall2 (fun m m' => path m' = path m /\
             (sel_state m' = sel_state m \/ is_under "/r/d" (path m) \/
              (is_under (path m) "/r/d" /\ path m <> "/r/d" /\
               isDirectory m' = true /\ children m' <> [] /\
               sel_state m' = derived_state (children m'))))
          (nodes chain_tree) (nodes (toggle_at chain_tree "/r/d")) /\
  (exists n2, lookup "/r/d" (toggle_at (toggle_at chain_tree "/r/d") "/r/d") = Some n2 /\
     List.length (nodes n2) = List.length (nodes n) /\
     (forall m, In m (nodes n2) -> sel_state m = SNone))).
Proof.
  eexists. split; [vm_compute; reflexivity|].
  apply (toggle_dir_twice chain_tree "/r/d").
  - split; [apply wf_nodeb_sound; vm_compute; reflexivity | discriminate].
  - vm_compute; reflexivity.
  - vm_compute; reflexivity.
  - vm_compute; discriminate.
Defined.

(** X1.  Toggling the selection of any node keeps the tri-state invariant of
    a well-formed tree with distinct paths whose root path does not end in
    '/': the stamp leaves only the toggled node's parent out of step, and the
    upward walk, started at that parent, repairs it and every ancestor it
    puts out of step in turn. *)
Theorem toggle_at_preserves_tri_state t p :
  wf_tree t -> endsWithSlash (path t) = false -> NoDup (paths t) ->
  tri_state_invariant t = true -> tri_state_invariant (toggle_at t p) = true.
Proof.
  intros Hwf He Hnd Hinv. pose proof Hwf as [Hw Hne].
  unfold toggle_at, toggleSelect.
  destruct (lookup p t) as [n|] eqn:Hl; [|exact Hinv].
  destruct (lookup_spec _ _ _ Hl) as [Hp Hn].
  unfold updateParentSelectionStates, updateParentSelectionStates_trace. cbv zeta.
  rewrite Hp.
  set (ns := negb (selected n)).
  set (root1 := update_at p (set_selection ns false) t).
  pose proof (toggle_phase1 t p ns Hw He Hinv) as Hb1. fold root1 in Hb1.
  assert (Hw1 : wf_node root1) by (apply wf_update_at; [apply keeps_shape_set_selection | exact Hw]).
  assert (Hpr1 : path root1 = path t)
    by exact (proj1 (update_at_path_name _ _ _ (proj1 (keeps_shape_set_selection ns false)))).
  destruct (isDirectory n) eqn:Ed.
  - assert (Hpr2 : path (update_at p (setSelectionRecursive ns) root1) = path root1)
      by exact (proj1 (update_at_path_name _ _ _ (proj1 (keeps_shape_setSelectionRecursive ns)))).
    apply walk_from_bad_parent.
    + split; [apply wf_update_at; [apply keeps_shape_setSelectionRecursive | exact Hw1]|].
      congruence.
    + congruence.
    + apply toggle_phase2; [exact Hw1 | congruence |].
      intros m Hm Hbad. destruct (Hb1 m Hm Hbad) as [H|[H _]]; [now left | now right].
  - apply walk_from_bad_parent; [split; [exact Hw1 | congruence] | congruence |].
    intros m Hm Hbad. destruct (Hb1 m Hm Hbad) as [H|[H [n0 [Hn0 [Hp0 Hd0]]]]]; [exact H|].
    exfalso. assert (n0 = n) as ->
      by (apply (NoDup_map_path_inj (nodes t)); [exact Hnd | exact Hn0 | exact Hn | congruence]).
    congruence.
Qed.

Lemma toggle_at_preserves_tri_state_witness :
  tri_state_invariant (toggle_at sample_tree "/home/u/proj/A/x") = true.
Proof.
  apply toggle_at_preserves_tri_state.
  - split; [apply wf_nodeb_sound; vm_compute; reflexivity | discriminate].
  - vm_compute. reflexivity.
  - vm_compute. repeat constructor; simpl; intuition discriminate.
  - vm_compute. reflexivity.
Defined.

(** X3.  [updateDirectorySelectionState] leaves the directory consistent with
    its children and touches nothing but its two flags. *)
Theorem updateDirectorySelectionState_consistent m :
  tri_state_ok (updateDirectorySelectionState m) = true /\
  path (updateDirectorySelectionState m) = path m /\
  name (updateDirectorySelectionState m) = name m /\
  isDirectory (updateDirectorySelectionState m) = isDirectory m /\
  children (updateDirectorySelectionState m) = children m /\
  expanded (updateDirectorySelectionState m) = expanded m.
Proof.
  split; [apply tri_state_ok_updateDirectorySelectionState|].
  unfold updateDirectorySelectionState.
  destruct (negb (isDirectory m) || (List.length (children m) =? 0)%nat); [tauto|].
  destruct (forallb _ _); [|destruct (existsb _ _)]; simpl; tauto.
Qed.

Lemma Forall2_map_path (R : DirectoryNode -> DirectoryNode -> Prop) l l' :
  Forall2 (fun m m' => path m' = path m /\ R m m') l l' -> map path l' = map path l.
Proof. induction 1 as [|x x' l l' [Hp _] _ IH]; simpl; [reflexivity|]. now rewrite Hp, IH. Qed.

(** X2.  [toggleSelect] never changes the shape of the tree: it stays
    well-formed and keeps the same paths in the same order. *)
Theorem toggle_at_keeps_shape t p :
  wf_tree t -> wf_tree (toggle_at t p) /\ paths (toggle_at t p) = paths t.
Proof.
  intros Hw. split; [exact (wf_tree_toggle_at t p Hw)|].
  unfold paths. exact (Forall2_map_path _ _ _ (toggle_at_frame t p Hw)).
Qed.

Lemma toggle_at_keeps_shape_witness :
  wf_tree (toggle_at sample_tree "/home/u/proj/A") /\
  paths (toggle_at sample_tree "/home/u/proj/A") = paths sample_tree.
Proof.
  apply toggle_at_keeps_shape.
  split; [apply wf_nodeb_sound; vm_compute; reflexivity | discriminate].
Defined.

Lemma visible_rec_unfold ign n :
  visible_rec ign n =
  n :: (if isDirectory n && expanded n then
          if existsb (String.eqb (name n)) ign && (List.length (children n) =? 0)%nat
          then [placeholder n]
          else flat_map (visible_rec ign) (children n)
        else []).
Proof. now destruct n. Qed.

Lemma visible_loop_rec fuel ign st acc :
  (List.length (flat_map nodes st) < fuel)%nat ->
  visible_loop fuel ign st acc = (acc ++ flat_map (visible_rec ign) st)%list.
Proof.
  revert st acc. induction fuel as [|fuel IH]; intros st acc H; [lia|].
  destruct st as [|n st]; [simpl; now rewrite app_nil_r|].
  cbn [visible_loop flat_map]. rewrite (visible_rec_unfold ign n).
  cbn [flat_map] in H. rewrite length_app, nodes_unfold in H. cbn [List.length] in H.
  destruct (isDirectory n && expanded n).
  - destruct (existsb (String.eqb (name n)) ign && (List.length (children n) =? 0)%nat).
    + rewrite IH by lia. now rewrite <- !app_assoc.
    + rewrite IH by (rewrite flat_map_app, length_app; lia).
      rewrite flat_map_app. now rewrite <- !app_assoc.
  - rewrite IH by lia. now rewrite <- !app_assoc.
Qed.

Lemma updateVisibleNodes_list ign r vis c r' vis' c' :
  updateVisibleNodes ign (Some r) vis c = Some (r', vis', c') ->
  r' = Some (set_expanded r) /\ vis' = visible_rec ign (set_expanded r).
Proof.
  unfold updateVisibleNodes. intros H.
  cbv beta iota zeta delta [option_map] in H.
  rewrite visible_loop_rec in H by (cbn [flat_map]; rewrite app_nil_r; lia).
  cbn [flat_map] in H. rewrite app_nil_r in H.
  destruct ((0 <? Z.of_nat (List.length vis))%Z && (c <? Z.of_nat (List.length vis))%Z);
    [destruct (c <? 0)%Z; [discriminate|]|];
    (injection H as H1 H2 _; split; [congruence | rewrite <- H2; reflexivity]).
Qed.

(** X4.  The list [updateVisibleNodes] builds with its explicit stack is the
    recursive pre-order listing of the expanded part of the tree. *)
Theorem updateVisibleNodes_preorder ign r vis c r' vis' c' :
  updateVisibleNodes ign (Some r) vis c = Some (r', vis', c') ->
  r' = Some (set_expanded r) /\ vis' = visible_rec ign (set_expanded r).
Proof. exact (updateVisibleNodes_list ign r vis c r' vis' c'). Qed.

Lemma updateVisibleNodes_preorder_witness :
  updateVisibleNodes [] (Some sample_tree) [] 0 =
    Some (Some (set_expanded sample_tree), visible_rec [] (set_expanded sample_tree), 0%Z) /\
  Some (set_expanded sample_tree) = Some (set_expanded sample_tree) /\
  visible_rec [] (set_expanded sample_tree) = visible_rec [] (set_expanded sample_tree).
Proof.
  assert (H : updateVisibleNodes [] (Some sample_tree) [] 0 =
    Some (Some (set_expanded sample_tree), visible_rec [] (set_expanded sample_tree), 0%Z))
    by (vm_compute; reflexivity).
  split; [exact H|]. exact (updateVisibleNodes_preorder [] sample_tree [] 0 _ _ _ H).
Defined.

Lemma visible_rec_members ign n m :
  In m (visible_rec ign n) ->
  In m (nodes n) \/
  exists d, In d (nodes n) /\ m = placeholder d /\ isDirectory d = true /\
            expanded d = true /\ children d = [] /\ In (name d) ign.
Proof.
  revert m. induction n as [n IH] using node_ind'. intros m Hm.
  rewrite visible_rec_unfold in Hm. destruct Hm as [<-|Hm].
  { left. rewrite nodes_unfold. now left. }
  destruct (isDirectory n) eqn:Ed; [|destruct Hm]. destruct (expanded n) eqn:Ee; [|destruct Hm].
  cbn [andb] in Hm.
  destruct (existsb (String.eqb (name n)) ign) eqn:Ei;
    [destruct (Nat.eqb_spec (List.length (children n)) 0) as [Hl|Hl]|]; cbn [andb] in Hm.
  - destruct Hm as [<-|[]]. right. exists n. repeat split; auto.
    + rewrite nodes_unfold. now left.
    + now destruct (children n).
    + apply existsb_exists in Ei as [x [Hx Hxe]]. apply String.eqb_eq in Hxe. congruence.
  - apply in_flat_map in Hm as [c [Hc Hmc]].
    destruct (IH c Hc m Hmc) as [H|[d [Hd Hr]]].
    + left. eapply in_nodes_child; eauto.
    + right. exists d. split; [eapply in_nodes_child; eauto | exact Hr].
  - apply in_flat_map in Hm as [c [Hc Hmc]].
    destruct (IH c Hc m Hmc) as [H|[d [Hd Hr]]].
    + left. eapply in_nodes_child; eauto.
    + right. exists d. split; [eapply in_nodes_child; eauto | exact Hr].
Qed.

(** X5.  Every row [updateVisibleNodes] lists is a node of the (root-expanded)
    tree, or the placeholder of an expanded, childless directory whose name
    is ignored. *)
Theorem updateVisibleNodes_rows ign r vis c r' vis' c' m :
  updateVisibleNodes ign (Some r) vis c = Some (r', vis', c') -> In m vis' ->
  In m (nodes (set_expanded r)) \/
  exists d, In d (nodes (set_expanded r)) /\ m = placeholder d /\ isDirectory d = true /\
            expanded d = true /\ children d = [] /\ In (name d) ign.
Proof.
  intros H Hm. destruct (updateVisibleNodes_list _ _ _ _ _ _ _ H) as [_ ->].
  exact (visible_rec_members ign _ m Hm).
Qed.

Lemma updateVisibleNodes_rows_witness :
  In (set_expanded sample_tree) (nodes (set_expanded sample_tree)) \/
  exists d, In d (nodes (set_expanded sample_tree)) /\ set_expanded sample_tree = placeholder d /\
            isDirectory d = true /\ expanded d = true /\ children d = [] /\ In (name d) [].
Proof.
  apply (updateVisibleNodes_rows [] sample_tree [] 0 (Some (set_expanded sample_tree))
           (visible_rec [] (set_expanded sample_tree)) 0%Z).
  - vm_compute. reflexivity.
  - rewrite visible_rec_unfold. now left.
Defined.

Lemma arrow_key_step vis key c c' :
  arrow_key vis key c = Some c' -> c' = moveUp c \/ c' = moveDown vis c.
Proof.
  unfold arrow_key. destruct (String.eqb key up_arrow); [intros [= <-]; now left|].
  destruct (String.eqb key down_arrow); [intros [= <-]; now right | discriminate].
Qed.

Lemma arrow_key_up vis c : arrow_key vis up_arrow c = Some (moveUp c).
Proof. reflexivity. Qed.

Lemma arrow_key_down vis c : arrow_key vis down_arrow c = Some (moveDown vis c).
Proof. reflexivity. Qed.

(** X7.  Under the arrow keys the cursor stays on a row of the visible list:
    from a row, any sequence of up and down arrows ends on a row; [k] presses
    of down arrow move it [k] rows down but no further than the last row, and
    [k] presses of up arrow [k] rows up but no further than the first. *)
Theorem arrow_keys_cursor vis c :
  (0 <= c < Z.of_nat (List.length vis))%Z ->
  (forall keys c', arrow_keys vis keys c = Some c' ->
     (0 <= c' < Z.of_nat (List.length vis))%Z) /\
  (forall k, arrow_keys vis (repeat down_arrow k) c =
             Some (Z.min (c + Z.of_nat k) (Z.of_nat (List.length vis) - 1))) /\
  (forall k, arrow_keys vis (repeat up_arrow k) c = Some (Z.max (c - Z.of_nat k) 0)).
Proof.
  intros Hc. split; [|split].
  - intros keys. revert c Hc. induction keys as [|key keys IH]; intros c Hc c'; simpl.
    + now intros [= <-].
    + destruct (arrow_key vis key c) as [c1|] eqn:E; [|discriminate].
      apply IH. apply arrow_key_step in E as [->| ->]; unfold moveUp, moveDown.
      * destruct (Z.gtb_spec c 0); lia.
      * destruct (Z.ltb_spec c (Z.of_nat (List.length vis) - 1)); lia.
  - intros k. revert c Hc. induction k as [|k IH]; intros c Hc; cbn [repeat arrow_keys].
    + f_equal. lia.
    + rewrite arrow_key_down. unfold moveDown.
      destruct (Z.ltb_spec c (Z.of_nat (List.length vis) - 1)); rewrite IH by lia; f_equal; lia.
  - intros k. assert (Hc0 : (0 <= c)%Z) by lia. clear Hc. revert c Hc0.
    induction k as [|k IH]; intros c Hc; cbn [repeat arrow_keys].
    + f_equal. lia.
    + rewrite arrow_key_up. unfold moveUp.
      destruct (Z.gtb_spec c 0); rewrite IH by lia; f_equal; lia.
Qed.

Lemma arrow_keys_cursor_witness :
  let vis := visible_rec [] sample_tree in
  ((forall keys c', arrow_keys vis keys 1 = Some c' ->
      (0 <= c' < Z.of_nat (List.length vis))%Z) /\
   (forall k, arrow_keys vis (repeat down_arrow k) 1 =
              Some (Z.min (1 + Z.of_nat k) (Z.of_nat (List.length vis) - 1))) /\
   (forall k, arrow_keys vis (repeat up_arrow k) 1 = Some (Z.max (1 - Z.of_nat k) 0))) /\
  arrow_keys vis [down_arrow; down_arrow; up_arrow; down_arrow] 1 = Some 3%Z /\
  arrow_keys vis (repeat down_arrow 20) 1 = Some (Z.of_nat (List.length vis) - 1)%Z /\
  arrow_keys vis [up_arrow; up_arrow; up_arrow] 1 = Some 0%Z.
Proof.
  intros vis. split; [apply arrow_keys_cursor; split; [lia | vm_compute; reflexivity]|].
  split; [vm_compute; reflexivity|]. split; vm_compute; reflexivity.
Defined.

Lemma filter_map_path (f : string -> bool) l :
  filter f (map path l) = map path (filter (fun m => f (path m)) l).
Proof. induction l as [|x l IH]; simpl; [reflexivity|]. destruct (f (path x)); simpl; now rewrite IH. Qed.

Lemma filter_filter_andb {A} (f g : A -> bool) l :
  filter f (filter g l) = filter (fun x => g x && f x) l.
Proof. induction l as [|x l IH]; simpl; [reflexivity|]. destruct (g x); simpl; [destruct (f x)|]; simpl; now rewrite IH. Qed.

Lemma filter_ext_In {A} (f g : A -> bool) l :
  (forall x, In x l -> f x = g x) -> filter f l = filter g l.
Proof.
  induction l as [|x l IH]; intros H; simpl; [reflexivity|].
  rewrite (H x (or_introl eq_refl)), IH; [reflexivity|]. intros y Hy. apply H. now right.
Qed.


Lemma lookup_unique r m :
  NoDup (paths r) -> In m (nodes r) -> lookup (path m) r = Some m.
Proof.
  intros Hnd Hm.
  assert (Hin : In (path m) (paths r)) by (unfold paths; now apply in_map).
  destruct (lookup_complete _ _ Hin) as [m' Hl]. rewrite Hl. f_equal.
  destruct (lookup_spec _ _ _ Hl) as [Hp Hm'].
  exact (NoDup_map_path_inj (nodes r) m' m Hnd Hm' Hm Hp).
Qed.

(** X8.  On a well-formed tree with distinct paths, [getSelectedFiles] lists
    the paths of the selected files, in pre-order, leaving out the selected
    directories. *)
Theorem getSelectedFiles_preorder r :
  wf_node r -> NoDup (paths r) ->
  getSelectedFiles (Some r) =
  map path (filter (fun m => selected m && negb (isDirectory m)) (nodes r)).
Proof.
  intros Hw Hnd. unfold getSelectedFiles, getSelectedPaths.
  rewrite collectSelectedPaths_preorder by exact Hw.
  rewrite filter_map_path, filter_filter_andb. f_equal.
  apply filter_ext_In. intros m Hm. now rewrite (lookup_unique r m Hnd Hm).
Qed.

Lemma getSelectedFiles_preorder_witness :
  getSelectedFiles (Some one_file_selected_tree) =
  map path (filter (fun m => selected m && negb (isDirectory m)) (nodes one_file_selected_tree)).
Proof.
  apply getSelectedFiles_preorder.
  - apply wf_nodeb_sound. vm_compute. reflexivity.
  - vm_compute. repeat constructor; simpl; intuition discriminate.
Defined.

(** X9.  Only the first 4096 bytes decide [isBinaryFile]. *)
Theorem isBinaryFile_first_4096 l1 l2 :
  (4096 <= List.length l1)%nat ->
  isBinaryFile (Some (l1 ++ l2)%list) = isBinaryFile (Some l1).
Proof.
  intros H. unfold isBinaryFile. rewrite firstn_app.
  replace (4096 - List.length l1)%nat with 0%nat by lia. now rewrite app_nil_r.
Qed.

Lemma isBinaryFile_first_4096_witness :
  isBinaryFile (Some (repeat Byte.x20 4096 ++ [Byte.x00])%list) =
  isBinaryFile (Some (repeat Byte.x20 4096)).
Proof. apply isBinaryFile_first_4096. apply Nat.leb_le. vm_compute. reflexivity. Defined.

Lemma bytes_eqb_refl l : bytes_eqb l l = true.
Proof. induction l as [|x l IH]; simpl; [reflexivity|]. now rewrite Nat.eqb_refl. Qed.

(** X10.  A file that starts with one of the signatures is binary, whatever
    follows (so also a text file that happens to start with "BM", "RIFF",
    "GIF8", "%PDF" or "PK" followed by bytes 3 and 4). *)
Theorem isBinaryFile_signature sig rest :
  In sig binarySignatures -> isBinaryFile (Some (sig ++ rest)%list) = true.
Proof.
  intros Hs. unfold isBinaryFile.
  replace (existsb _ binarySignatures) with true; [reflexivity|].
  symmetry. apply existsb_exists. exists sig. split; [exact Hs|].
  assert (Hl : (List.length sig <= 4)%nat)
    by (simpl in Hs; intuition (subst; simpl; lia)).
  rewrite firstn_firstn. replace (Nat.min (List.length sig) 4096) with (List.length sig) by lia.
  rewrite firstn_app, Nat.sub_diag, firstn_all. simpl. rewrite app_nil_r. apply bytes_eqb_refl.
Qed.

Lemma isBinaryFile_signature_witness :
  isBinaryFile (Some ([Byte.x42; Byte.x4d] ++ [Byte.x57; Byte.x20; Byte.x63; Byte.x61; Byte.x72])%list)
  = true.
Proof.
  apply isBinaryFile_signature. simpl. do 7 right. left. reflexivity.
Defined.

Lemma filter_none {A} (f : A -> bool) l :
  (forall x, In x l -> f x = false) -> filter f l = [].
Proof.
  induction l as [|x l IH]; intros H; simpl; [reflexivity|].
  rewrite (H x (or_introl eq_refl)). apply IH. intros y Hy. apply H. now right.
Qed.

(** X11.  A file with no byte below 9 (no NUL, no control byte 1..8) whose
    first byte starts no signature is not binary. *)
Theorem isBinaryFile_text bytes :
  (forall b, In b bytes -> (9 <= Byte.to_nat b)%nat) ->
  match bytes with
  | [] => True
  | b :: _ => ~ In (Byte.to_nat b) [255; 137; 80; 37; 71; 82; 31; 66]%nat
  end ->
  isBinaryFile (Some bytes) = false.
Proof.
  intros Hb Hf. unfold isBinaryFile.
  set (buffer := firstn 4096 bytes).
  assert (Hbuf : forall b, In b buffer -> (9 <= Byte.to_nat b)%nat)
    by (intros b Hin; apply Hb; rewrite <- (firstn_skipn 4096 bytes); apply in_or_app; now left).
  replace (existsb _ binarySignatures) with false.
  - replace (filter (fun b => Nat.eqb (Byte.to_nat b) 0) buffer) with (@nil Byte.byte).
    + replace (filter (fun b => negb (Nat.eqb (Byte.to_nat b) 0) && Nat.ltb (Byte.to_nat b) 9)
                 buffer) with (@nil Byte.byte); [simpl; now destruct (List.length buffer)|].
      symmetry. apply filter_none. intros x Hx. specialize (Hbuf x Hx).
      destruct (Nat.ltb_spec (Byte.to_nat x) 9); [lia|]. now rewrite andb_false_r.
    + symmetry. apply filter_none. intros x Hx. specialize (Hbuf x Hx).
      apply Nat.eqb_neq. lia.
  - destruct bytes as [|b rest]; [reflexivity|]. subst buffer. simpl firstn.
    simpl in Hf.
    assert (Hn : forall k, In k [255; 137; 80; 37; 71; 82; 31; 66]%nat ->
                 Nat.eqb (Byte.to_nat b) k = false).
    { intros k Hk. apply Nat.eqb_neq. intros E. apply Hf. rewrite E. exact Hk. }
    simpl. rewrite !Hn by (simpl; tauto). reflexivity.
Qed.

Lemma isBinaryFile_text_witness :
  isBinaryFile (Some [Byte.x68; Byte.x69; Byte.x0a]) = false.
Proof.
  apply isBinaryFile_text.
  - intros b Hb. simpl in Hb. destruct Hb as [<-|[<-|[<-|[]]]]; simpl; lia.
  - simpl. lia.
Defined.

Lemma findIndex_first l1 p l2 :
  ~ In p l1 -> FileExport.findIndex p (l1 ++ p :: l2)%list = Z.of_nat (List.length l1).
Proof.
  induction l1 as [|x l1 IH]; intros Hn; simpl.
  - now rewrite String.eqb_refl.
  - destruct (String.eqb_spec x p) as [E|E]; [exfalso; apply Hn; now left|].
    rewrite IH by (intros H; apply Hn; now right).
    destruct (Z.eqb_spec (Z.of_nat (List.length l1)) (-1)); lia.
Qed.

(** X12.  [removeFile(p)] deletes the first occurrence of [p] and keeps the
    order of the others. *)
Theorem removeFile_first l1 p l2 :
  ~ In p l1 -> FileExport.removeFile (l1 ++ p :: l2)%list p = (l1 ++ l2)%list.
Proof.
  intros Hn. unfold FileExport.removeFile, FileExport.splice1.
  rewrite findIndex_first by exact Hn. cbv zeta.
  rewrite length_app. cbn [List.length].
  replace (Z.of_nat (List.length l1) <? 0)%Z with false by (symmetry; apply Z.ltb_ge; lia).
  replace (Z.min (Z.of_nat (List.length l1)) (Z.of_nat (List.length l1 + S (List.length l2))))
    with (Z.of_nat (List.length l1)) by lia.
  rewrite Nat2Z.id, firstn_app, Nat.sub_diag, firstn_all, app_nil_r.
  change (S (List.length l1)) with (1 + List.length l1)%nat.
  rewrite <- skipn_skipn, skipn_app, Nat.sub_diag, skipn_all. reflexivity.
Qed.

Lemma removeFile_first_witness :
  FileExport.removeFile (["/r/a"] ++ "/r/b" :: ["/r/c"; "/r/b"])%list "/r/b" =
  (["/r/a"] ++ ["/r/c"; "/r/b"])%list.
Proof. apply removeFile_first. simpl. intuition discriminate. Defined.

Lemma findIndex_range p l :
  FileExport.findIndex p l = (-1)%Z \/
  (0 <= FileExport.findIndex p l < Z.of_nat (List.length l))%Z.
Proof.
  induction l as [|x l IH]; simpl; [now left|].
  destruct (String.eqb x p); [right; lia|].
  destruct IH as [E|E]; [rewrite E; now left|].
  destruct (Z.eqb_spec (FileExport.findIndex p l) (-1)); [lia|right; lia].
Qed.

(** X13.  [removeFile] always shortens a non-empty list by exactly one, whether
    or not [p] is in it, and leaves the empty list empty. *)
Theorem removeFile_length l p :
  List.length (FileExport.removeFile l p) = Nat.pred (List.length l).
Proof.
  unfold FileExport.removeFile, FileExport.splice1. cbv zeta.
  destruct (findIndex_range p l) as [E|E].
  - rewrite E. replace ((-1 <? 0)%Z) with true by reflexivity.
    destruct l as [|x l]; [reflexivity|].
    cbn [List.length]. replace (Z.to_nat (Z.max (Z.of_nat (S (List.length l)) + -1) 0))
      with (List.length l) by lia.
    rewrite length_app, length_firstn, length_skipn. cbn [List.length]. lia.
  - replace (FileExport.findIndex p l <? 0)%Z with false by (symmetry; apply Z.ltb_ge; lia).
    replace (Z.min (FileExport.findIndex p l) (Z.of_nat (List.length l)))
      with (FileExport.findIndex p l) by lia.
    rewrite length_app, length_firstn, length_skipn. lia.
Qed.

Lemma Permutation_filter_bool {A} (f : A -> bool) l l' :
  Permutation l l' -> Permutation (filter f l) (filter f l').
Proof.
  induction 1; simpl.
  - constructor.
  - destruct (f x); [now apply perm_skip | exact IHPermutation].
  - destruct (f x), (f y); try reflexivity; apply perm_swap.
  - eapply Permutation_trans; eassumption.
Qed.

Lemma insert_by_perm {A} (cmp : A -> A -> comparison) x l :
  Permutation (insert_by cmp x l) (x :: l).
Proof.
  induction l as [|y l IH]; simpl; [reflexivity|].
  destruct (cmp x y); try reflexivity.
  rewrite IH. apply perm_swap.
Qed.

Lemma sort_by_perm {A} (cmp : A -> A -> comparison) l : Permutation (sort_by cmp l) l.
Proof.
  induction l as [|x l IH]; simpl; [reflexivity|].
  rewrite insert_by_perm. now apply perm_skip.
Qed.

(** X16.  For a directory whose name is not ignored, [scanDirectory] gives it
    one child per entry that [stat] could read, with that entry's name, the
    path [join(node.path, name)] and the directory flag [stat] reported; the
    entries [stat] failed on are dropped, and every child starts collapsed,
    unselected and without children. *)
Theorem scanDirectory_children_entries (localeCompare : string -> string -> comparison)
  ign p nm es :
  existsb (String.eqb nm) ign = false ->
  Permutation
    (map (fun c => (name c, path c, isDirectory c)) (scanDirectory_children localeCompare ign p nm (Some es)))
    (flat_map (fun e => match entry_stat e with
                        | Some d => [(entry_name e, join p (entry_name e), d)]
                        | None => []
                        end) es) /\
  (forall c, In c (scanDirectory_children localeCompare ign p nm (Some es)) ->
     children c = [] /\ expanded c = false /\ selected c = false /\ partiallySelected c = false).
Proof.
  intros Hi. unfold scanDirectory_children. rewrite Hi. split.
  - rewrite map_map. cbn [name path isDirectory].
    transitivity (map (fun e => (se_name e, se_path e, se_isDirectory e))
                      (filter (fun e => negb (se_error e)) (map (scan_entry p) es))).
    + apply Permutation_map, Permutation_filter_bool, sort_by_perm.
    + clear Hi. induction es as [|e es IH]; simpl; [reflexivity|].
      destruct e as [en [d|]]; simpl; [apply perm_skip, IH | exact IH].
  - intros c Hc. apply in_map_iff in Hc as [x [<- _]]. simpl. tauto.
Qed.

Lemma scanDirectory_children_entries_witness :
  let es := [mkDirEntry "b" (Some false); mkDirEntry "a" None; mkDirEntry "c" (Some true)] in
  Permutation
    (map (fun c => (name c, path c, isDirectory c))
       (scanDirectory_children localeCompare_root ["node_modules"] "/r" "r" (Some es)))
    (flat_map (fun e => match entry_stat e with
                        | Some d => [(entry_name e, join "/r" (entry_name e), d)]
                        | None => []
                        end) es) /\
  (forall c, In c (scanDirectory_children localeCompare_root ["node_modules"] "/r" "r" (Some es)) ->
     children c = [] /\ expanded c = false /\ selected c = false /\ partiallySelected c = false).
Proof. intros es. apply scanDirectory_children_entries. reflexivity. Defined.

Lemma cursor_clamp_range (c1 : Z) (n : nat) :
  (1 <= n)%nat ->
  (0 <= (if (c1 <? 0)%Z || (Z.of_nat n =? 0)%Z then 0%Z
         else if (Z.of_nat n <=? c1)%Z then (Z.of_nat n - 1)%Z else c1) < Z.of_nat n)%Z.
Proof.
  intros Hn. destruct (Z.ltb_spec c1 0); destruct (Z.eqb_spec (Z.of_nat n) 0); simpl;
    [lia | lia | lia | destruct (Z.leb_spec (Z.of_nat n) c1); lia].
Qed.

(** X6.  Whenever [updateVisibleNodes] returns, the cursor rests on a row of
    the new list (the list is never empty: it starts with the root). *)
Theorem updateVisibleNodes_cursor_in_range ign r vis c r' vis' c' :
  updateVisibleNodes ign (Some r) vis c = Some (r', vis', c') ->
  (0 <= c' < Z.of_nat (List.length vis'))%Z.
Proof.
  intros H. unfold updateVisibleNodes in H.
  cbv beta iota zeta delta [option_map] in H.
  rewrite visible_loop_rec in H by (cbn [flat_map]; rewrite app_nil_r; lia).
  cbn [flat_map] in H. rewrite app_nil_r, app_nil_l in H.
  assert (Hlen : (1 <= List.length (visible_rec ign (set_expanded r)))%nat)
    by (rewrite visible_rec_unfold; simpl; lia).
  set (V := visible_rec ign (set_expanded r)) in H, Hlen. clearbody V.
  destruct (_ && _)%bool; [destruct (c <? 0)%Z; [discriminate|]|];
    injection H as _ Hv' Hc; subst vis' c';
    first [ now apply cursor_clamp_range
          | destruct (Z.eqb_spec (Z.of_nat (List.length V)) 0); [lia|];
            destruct (Z.leb_spec (Z.of_nat (List.length V)) 0); lia ].
Qed.

Lemma updateVisibleNodes_cursor_in_range_witness :
  updateVisibleNodes [] (Some sample_tree) [] 0 =
    Some (Some (set_expanded sample_tree), visible_rec [] (set_expanded sample_tree), 0%Z) /\
  (0 <= 0 < Z.of_nat (List.length (visible_rec [] (set_expanded sample_tree))))%Z.
Proof.
  assert (H : updateVisibleNodes [] (Some sample_tree) [] 0 =
    Some (Some (set_expanded sample_tree), visible_rec [] (set_expanded sample_tree), 0%Z))
    by (vm_compute; reflexivity).
  split; [exact H|]. exact (updateVisibleNodes_cursor_in_range [] sample_tree [] 0 _ _ _ H).
Defined.

Section DirectoryTreeLemmas.
Context {SelectState : Type} (none : SelectState)
  (localeCompare : string -> string -> comparison).

Lemma t_lookup_unfold p (n : @DirectoryTreeNode SelectState) :
  t_lookup p n =
  if String.eqb (t_path n) p then Some n
  else (fix go (l : list DirectoryTreeNode) : option DirectoryTreeNode :=
          match l with
          | [] => None
          | c :: l' => match t_lookup p c with Some r => Some r | None => go l' end
          end) (t_children n).
Proof. now destruct n. Qed.

Lemma t_lookup_path p (n m : @DirectoryTreeNode SelectState) :
  t_lookup p n = Some m -> t_path m = p.
Proof.
  revert m. induction n as [n IH] using t_node_ind'. intros m.
  rewrite t_lookup_unfold. destruct (String.eqb_spec (t_path n) p) as [E|E].
  - now intros [= <-].
  - clear E. induction (t_children n) as [|c cs IHcs]; [discriminate|].
    destruct (t_lookup p c) as [r|] eqn:Hc.
    + intros [= <-]. exact (IH c (or_introl eq_refl) r Hc).
    + apply IHcs. intros c' Hc'. apply IH. now right.
Qed.

Lemma t_lookup_update_same q f (t : @DirectoryTreeNode SelectState) :
  (forall m, t_path (f m) = t_path m) ->
  t_lookup q (t_update_at q f t) = option_map f (t_lookup q t).
Proof.
  intros Hf. induction t as [t IH] using t_node_ind'.
  destruct t as [pn nm d cs e s l]. simpl t_update_at. simpl in IH.
  destruct (String.eqb_spec pn q) as [E|E].
  - rewrite t_lookup_unfold, Hf. simpl. rewrite E, String.eqb_refl. reflexivity.
  - rewrite !t_lookup_unfold. simpl.
    rewrite (proj2 (String.eqb_neq pn q) E). clear E.
    induction cs as [|c cs IHcs]; simpl; [reflexivity|].
    rewrite (IH c (or_introl eq_refl)).
    destruct (t_lookup q c); [reflexivity|]. simpl.
    apply IHcs. intros c' Hc'. apply IH. now right.
Qed.

Lemma t_update_at_compose q f g (t : @DirectoryTreeNode SelectState) :
  (forall m, t_path (g m) = t_path m) ->
  t_update_at q f (t_update_at q g t) = t_update_at q (fun m => f (g m)) t.
Proof.
  intros Hg. induction t as [t IH] using t_node_ind'.
  destruct t as [pn nm d cs e s l]. simpl in IH |- *.
  destruct (String.eqb_spec pn q) as [E|E].
  - pose proof (Hg (mkTreeNode pn nm d cs e s l)) as Hp. simpl in Hp.
    destruct (g (mkTreeNode pn nm d cs e s l)) as [pg ng dg csg eg sg lg].
    simpl in Hp |- *. subst pg. rewrite E, String.eqb_refl. reflexivity.
  - simpl. rewrite (proj2 (String.eqb_neq pn q) E). f_equal.
    rewrite map_map. apply map_ext_in. intros c Hc. exact (IH c Hc).
Qed.

Lemma t_update_at_ext q f g (t : @DirectoryTreeNode SelectState) :
  (forall m, In m (t_nodes t) -> t_path m = q -> f m = g m) ->
  t_update_at q f t = t_update_at q g t.
Proof.
  induction t as [t IH] using t_node_ind'. intros H.
  destruct t as [pn nm d cs e s l]. simpl in IH, H |- *.
  destruct (String.eqb_spec pn q) as [E|E].
  - apply H; [now left | exact E].
  - f_equal. apply map_ext_in. intros c Hc. apply IH; [exact Hc|].
    intros m Hm. apply H. right. apply in_flat_map. eauto.
Qed.

Lemma expand_found_path rd (n : @DirectoryTreeNode SelectState) :
  t_path (expand_found none localeCompare rd n) = t_path n /\
  t_isDirectory (expand_found none localeCompare rd n) = t_isDirectory n.
Proof.
  destruct n as [p nm d cs e s l]. unfold expand_found, toggleExpand, loadChildrenForNode.
  cbn [t_path t_loaded]. destruct (if d then negb e else e), l; cbn [andb negb];
    try (simpl; split; reflexivity).
  simpl. destruct (rd p); simpl; split; reflexivity.
Qed.

Lemma expand_found_cycle rd0 rd1 rd2 (n : @DirectoryTreeNode SelectState) :
  t_expanded n = false ->
  expand_found none localeCompare rd2 (expand_found none localeCompare rd1 (expand_found none localeCompare rd0 n)) =
  expand_found none localeCompare rd0 n.
Proof.
  destruct n as [p nm d cs e s l]. simpl. intros ->.
  destruct d, l; [reflexivity| |reflexivity|reflexivity].
  unfold expand_found, toggleExpand, loadChildrenForNode. simpl.
  destruct (rd0 p); reflexivity.
Qed.

(** X14.  Expanding a collapsed directory, collapsing it and expanding it
    again gives the tree after the first expansion: the directory is read at
    most once, and a read that failed is never retried. *)
Theorem expandNode_cycle rd0 rd1 rd2 (root n : @DirectoryTreeNode SelectState) p :
  t_lookup p root = Some n -> t_isDirectory n = true ->
  (forall m, In m (t_nodes root) -> t_path m = p -> t_expanded m = false) ->
  expandNode none localeCompare rd2 (expandNode none localeCompare rd1 (expandNode none localeCompare rd0 root p) p) p =
  expandNode none localeCompare rd0 root p.
Proof.
  intros Hl Hd Hc.
  assert (Hp : t_path n = p) by exact (t_lookup_path _ _ _ Hl).
  assert (Hfp : forall rd m, t_path (expand_found none localeCompare rd m) = t_path m)
    by (intros; apply expand_found_path).
  assert (Hfd : forall rd m, t_isDirectory (expand_found none localeCompare rd m) = t_isDirectory m)
    by (intros; apply expand_found_path).
  unfold expandNode at 3. rewrite Hl, Hd, Hp. cbn [negb].
  unfold expandNode at 2. rewrite t_lookup_update_same by apply Hfp. rewrite Hl.
  cbn [option_map]. rewrite Hfd, Hd, Hfp, Hp. cbn [negb].
  rewrite t_update_at_compose by apply Hfp.
  unfold expandNode. rewrite t_lookup_update_same by (intros; rewrite !Hfp; reflexivity).
  rewrite Hl. cbn [option_map]. rewrite !Hfd, Hd, !Hfp, Hp. cbn [negb].
  rewrite t_update_at_compose by (intros; rewrite !Hfp; reflexivity).
  apply t_update_at_ext. intros m Hm Hmp. apply expand_found_cycle. exact (Hc m Hm Hmp).
Qed.

(** X15.  When the directory can be read, [loadChildrenForNode] adds one child
    per entry, with path [path.join(node.path, entry.name)] (normalised, so
    that the children of the root "." get the bare names), collapsed,
    unselected and not loaded, keeps the old children, and, for a
    [localeCompare] that is a total preorder, leaves the children in the
    comparator's order: directories first, then by [localeCompare] of names. *)
Theorem loadChildrenForNode_children
  (lc_antisym : forall a b, localeCompare b a = CompOpp (localeCompare a b))
  (lc_le_trans : forall a b c,
     localeCompare a b <> Gt -> localeCompare b c <> Gt -> localeCompare a c <> Gt)
  rd (n : @DirectoryTreeNode SelectState) entries :
  rd (t_path n) = Some entries ->
  let n' := loadChildrenForNode none localeCompare rd n in
  Permutation (t_children n')
    (t_children n ++
     map (fun '(nm, d) => mkTreeNode (path_join (t_path n) nm) nm d [] false none false)
         entries)%list /\
  StronglySorted (tree_le localeCompare) (t_children n') /\
  t_path n' = t_path n /\ t_isDirectory n' = t_isDirectory n /\
  t_expanded n' = t_expanded n /\ t_loaded n' = t_loaded n.
Proof.
  intros Hr n'. subst n'.
  split; [|split; [exact (loadChildrenForNode_sorted localeCompare lc_antisym lc_le_trans
                            none rd n entries Hr)|]].
  - unfold loadChildrenForNode. rewrite Hr. destruct n as [p nm d cs e s l]. simpl.
    apply sort_by_perm.
  - unfold loadChildrenForNode. rewrite Hr. destruct n as [p nm d cs e s l]. simpl. tauto.
Qed.

End DirectoryTreeLemmas.

Lemma expandNode_cycle_witness :
  let root := mkTreeNode "/r" "r" true [mkTreeNode "/r/d" "d" true [] false false false]
                true false true in
  expandNode false localeCompare_root (fun _ => None) (expandNode false localeCompare_root (fun _ => None)
    (expandNode false localeCompare_root (fun _ => Some [("x", false)]) root "/r/d") "/r/d") "/r/d" =
  expandNode false localeCompare_root (fun _ => Some [("x", false)]) root "/r/d".
Proof.
  intros root. apply (expandNode_cycle false localeCompare_root _ _ _ root
                        (mkTreeNode "/r/d" "d" true [] false false false)).
  - reflexivity.
  - reflexivity.
  - intros m Hm Hp. simpl in Hm. destruct Hm as [<-|[<-|[]]]; [discriminate | reflexivity].
Defined.

Lemma loadChildrenForNode_children_witness :
  let rd := fun _ : string => Some [("b", false); ("a", true)] in
  let n := mkTreeNode "." "." true [] false false false in
  let n' := loadChildrenForNode false localeCompare_root rd n in
  (Permutation (t_children n')
    (t_children n ++
     map (fun '(nm, d) => mkTreeNode (path_join (t_path n) nm) nm d [] false false false)
       [("b", false); ("a", true)])%list /\
  StronglySorted (tree_le localeCompare_root) (t_children n') /\
  t_path n' = t_path n /\ t_isDirectory n' = t_isDirectory n /\
  t_expanded n' = t_expanded n /\ t_loaded n' = t_loaded n) /\
  map t_path (t_children n') = ["a"; "b"].
Proof.
  intros rd n n'. split; [|vm_compute; reflexivity].
  apply (loadChildrenForNode_children false localeCompare_root localeCompare_root_antisym
           localeCompare_root_le_trans rd n). reflexivity.
Defined.

Section SortFilter.
Variable A : Type.
Variable cmp : A -> A -> comparison.
Hypothesis cmp_total : forall a b, cmp a b = Gt -> cmp b a <> Gt.
Hypothesis cmp_trans : forall a b c, cmp a b <> Gt -> cmp b c <> Gt -> cmp a c <> Gt.

Lemma insert_by_front x l :
  (forall z, In z l -> cmp x z <> Gt) -> insert_by cmp x l = x :: l.
Proof.
  destruct l as [|z l]; intros H; simpl; [reflexivity|].
  destruct (cmp x z) eqn:E; try reflexivity. exfalso. apply (H z); [now left | exact E].
Qed.

Lemma filter_insert_by (f : A -> bool) x l :
  StronglySorted (fun a b => cmp a b <> Gt) l ->
  filter f (insert_by cmp x l) = if f x then insert_by cmp x (filter f l) else filter f l.
Proof.
  induction 1 as [|y l Hs IH Hf]; simpl; [now destruct (f x)|].
  destruct (cmp x y) eqn:Exy.
  - simpl. destruct (f x) eqn:Fx; [|reflexivity].
    destruct (f y); simpl; [now rewrite Exy|].
    symmetry. apply insert_by_front. intros z Hz. apply filter_In in Hz as [Hz _].
    apply (cmp_trans x y z); [congruence|]. exact (proj1 (Forall_forall _ _) Hf z Hz).
  - simpl. destruct (f x) eqn:Fx; [|reflexivity].
    destruct (f y); simpl; [now rewrite Exy|].
    symmetry. apply insert_by_front. intros z Hz. apply filter_In in Hz as [Hz _].
    apply (cmp_trans x y z); [congruence|]. exact (proj1 (Forall_forall _ _) Hf z Hz).
  - simpl. rewrite IH. destruct (f x), (f y); simpl; rewrite ?Exy; reflexivity.
Qed.

Lemma filter_sort_by (f : A -> bool) l :
  filter f (sort_by cmp l) = sort_by cmp (filter f l).
Proof.
  induction l as [|x l IH]; simpl; [reflexivity|].
  rewrite filter_insert_by by (apply sort_by_sorted; assumption).
  rewrite IH. now destruct (f x).
Qed.

End SortFilter.

(** X17.  Loading an ignored directory on demand, with [fs] the file system
    [scanDirectory] reads, gives it, after its existing children, the first
    level of what a [scanDirectory] with no ignored names would give it: the
    same children, in the same order, but not scanned: they keep no children,
    where [scanDirectory] scans every subdirectory in turn.
    ([loadLargeDirectoryContents] drops the failed entries before sorting and
    [scanDirectory] after, which makes no difference for a [localeCompare]
    that is a total preorder.)  The node is then expanded. *)
Theorem loadLargeDirectoryContents_first_level (localeCompare : string -> string -> comparison)
  (lc_antisym : forall a b, localeCompare b a = CompOpp (localeCompare a b))
  (lc_le_trans : forall a b c,
     localeCompare a b <> Gt -> localeCompare b c <> Gt -> localeCompare a c <> Gt)
  fs fuel es node :
  fs (path node) = Some es ->
  children (loadLargeDirectoryContents localeCompare (Some es) node) =
  (children node ++
   map (fun c => mkNode (path c) (name c) (isDirectory c) [] (expanded c) (selected c)
                        (partiallySelected c))
       (skipn (List.length (children node))
              (children (scanDirectory localeCompare (S fuel) fs [] node))))%list /\
  expanded (loadLargeDirectoryContents localeCompare (Some es) node) = true.
Proof.
  intros Hfs. split; [|reflexivity].
  rewrite scanDirectory_S_children, Hfs, skipn_app, skipn_all, Nat.sub_diag, app_nil_l.
  cbn [skipn]. rewrite map_map.
  transitivity (children node ++
                scanDirectory_children localeCompare [] (path node) (name node) (Some es))%list.
  - simpl. f_equal. f_equal.
    rewrite (filter_sort_by _ (scan_compare localeCompare)
               (scan_le_total localeCompare lc_antisym)
               (scan_le_trans localeCompare lc_le_trans)). f_equal.
    clear Hfs. induction es as [|[en [d|]] es IH]; simpl; [reflexivity | f_equal; exact IH | exact IH].
  - f_equal.
    transitivity (map (fun x => x)
                    (scanDirectory_children localeCompare [] (path node) (name node) (Some es)));
      [symmetry; apply map_id|].
    apply map_ext_in. intros c Hc. cbv beta.
    pose proof (scanDirectory_children_fresh _ _ _ _ _ _ Hc) as Hcc.
    destruct (isDirectory c) eqn:Ed.
    + destruct (scanDirectory_fields localeCompare fuel fs [] c) as (H1 & H2 & H3 & H4 & H5 & H6).
      rewrite H1, H2, H3, H4, H5, H6. destruct c; simpl in *; subst; reflexivity.
    + destruct c; simpl in *; subst; reflexivity.
Qed.

Lemma loadLargeDirectoryContents_first_level_witness :
  let fs := fun p =>
    if String.eqb p "/r/node_modules" then
      Some [mkDirEntry "z" (Some true); mkDirEntry "bad" None; mkDirEntry "a.js" (Some false)]
    else if String.eqb p "/r/node_modules/z" then Some [mkDirEntry "i.js" (Some false)]
    else None in
  let node := mkNode "/r/node_modules" "node_modules" true [] true false false in
  (children (loadLargeDirectoryContents localeCompare_root
               (Some [mkDirEntry "z" (Some true); mkDirEntry "bad" None;
                      mkDirEntry "a.js" (Some false)]) node) =
   (children node ++
    map (fun c => mkNode (path c) (name c) (isDirectory c) [] (expanded c) (selected c)
                         (partiallySelected c))
        (skipn (List.length (children node))
               (children (scanDirectory localeCompare_root 3 fs [] node))))%list /\
   expanded (loadLargeDirectoryContents localeCompare_root
               (Some [mkDirEntry "z" (Some true); mkDirEntry "bad" None;
                      mkDirEntry "a.js" (Some false)]) node) = true) /\
  map (fun c => (name c, List.length (children c)))
      (children (scanDirectory localeCompare_root 3 fs [] node)) = [("z", 1%nat); ("a.js", 0%nat)].
Proof.
  intros fs node. split; [|vm_compute; reflexivity].
  apply (loadLargeDirectoryContents_first_level localeCompare_root localeCompare_root_antisym
           localeCompare_root_le_trans fs 2). reflexivity.
Defined.

Lemma list_ascii_of_string_append a b :
  list_ascii_of_string (a ++ b) = (list_ascii_of_string a ++ list_ascii_of_string b)%list.
Proof. induction a as [|c a IH]; simpl; [reflexivity | now rewrite IH]. Qed.

Lemma count_slashes_join p a :
  endsWithSlash p = false -> has_slash a = false ->
  count_slashes (join p a) = (count_slashes p + 1)%Z.
Proof.
  intros Hp Ha. unfold count_slashes, join. rewrite Hp.
  rewrite list_ascii_of_string_append, filter_app, length_app. simpl.
  replace (filter (fun c => Ascii.eqb c slash) (list_ascii_of_string a)) with (@nil ascii).
  - simpl. lia.
  - unfold has_slash in Ha. induction (list_ascii_of_string a) as [|x l IH]; [reflexivity|].
    simpl in Ha |- *. apply orb_false_iff in Ha as [H1 H2]. rewrite H1. exact (IH H2).
Qed.

(** X18.  [renderVisibleNode] indents each row by its depth below the root: the
    root is at depth 0 and a child one level deeper than its parent, when
    the root path does not end in '/'. *)
Theorem render_depth_child t m c :
  wf_node t -> endsWithSlash (path t) = false -> In m (nodes t) -> In c (children m) ->
  render_depth (Some t) t = 0%Z /\
  render_depth (Some t) c = (render_depth (Some t) m + 1)%Z.
Proof.
  intros Hw He Hm Hc. unfold render_depth. split; [lia|].
  pose proof (wf_nodes _ _ Hw Hm) as Hwm.
  destruct (wf_node_inv _ Hwm) as (_ & Hj & _). destruct (Hj c Hc) as (Hp & _ & Hs).
  rewrite Hp, count_slashes_join; [lia | | exact Hs].
  exact (wf_no_trailing_slash t m Hw He Hm).
Qed.

Lemma render_depth_child_witness :
  render_depth (Some sample_tree) sample_tree = 0%Z /\
  render_depth (Some sample_tree) (file_node "/home/u/proj/A/x" "x" false) =
  (render_depth (Some sample_tree)
     (dir_node "/home/u/proj/A" "A"
        [file_node "/home/u/proj/A/x" "x" false; file_node "/home/u/proj/A/y" "y" false]
        false false) + 1)%Z.
Proof.
  apply render_depth_child.
  - apply wf_nodeb_sound. vm_compute. reflexivity.
  - vm_compute. reflexivity.
  - simpl. right. left. reflexivity.
  - simpl. left. reflexivity.
Defined.
